(** * Request-scoped service injection: registry, instance cache, resolver

    A shallow embedding of [src/lib/service-provider.ts],
    [src/lib/with-service-provider.ts] and [src/lib/with-services.ts].

    JavaScript objects that are shared by reference (the [Map] holding a
    request's service instances, the [ServiceProvider] holding the
    factories) live in a store and are addressed by location, so that a
    closure that captured one of them sees later mutations, as in the
    source.  *)

From Stdlib Require Import Ascii String.
From stdpp Require Import base option list gmap strings.

Definition loc := nat.

(** ** Strings used by the source *)

Definition colon : string := String ":"%char EmptyString.
Definition space : string := String " "%char EmptyString.
Definition dquote : string := String "034"%char EmptyString.

(** [s] occurs inside [t]. *)
Definition occurs_in (s t : string) : Prop :=
  ∃ before after, t = before +:+ s +:+ after.

(** ** Completions: a call returns normally or throws [new Error(message)] *)

Inductive Completion (A : Type) : Type :=
  | Normal (a : A)
  | Throw (message : string).
Arguments Normal {A} a.
Arguments Throw {A} message.

Definition throws {A} (c : Completion A) : Prop :=
  match c with Throw _ => True | Normal _ => False end.

(** ** Identifier model *)

(** [route.pattern.source] *)
Record RoutePattern := { source : string }.

(** The two fields of a router [Route] that the library reads. *)
Record Route := { method : string; pattern : RoutePattern }.

(** [CatalogEntry]: a service definition with its name attached. *)
Record CatalogEntry := { __name : string }.

(** The first argument of [provide] and [resolveService] is a route or a
    catalog entry; [isCatalogEntry] tells them apart, and the route
    overloads carry the service name as a further argument. *)
Inductive ServiceIdentifier :=
  | CatalogId (entry : CatalogEntry)
  | RouteId (route : Route) (serviceName : string).

(** [`${route.method}:${route.pattern.source}:${serviceName}`] *)
Definition routeKey (route : Route) (serviceName : string) : string :=
  method route +:+ colon +:+ source (pattern route) +:+ colon +:+ serviceName.

(** [{ method: 'ANY', pattern: { source: '' } }], the route the catalog
    path of the resolver hands to [getFactory]. *)
Definition anyRoute : Route :=
  {| method := "ANY"; pattern := {| source := EmptyString |} |}.

(** The key under which [provide] stores a factory. *)
Definition registryKey (target : ServiceIdentifier) : string :=
  match target with
  | CatalogId entry => __name entry
  | RouteId route serviceName => routeKey route serviceName
  end.

(** The key under which the resolver caches an instance. *)
Definition cacheKey (target : ServiceIdentifier) : string :=
  match target with
  | CatalogId entry => __name entry
  | RouteId route serviceName => routeKey route serviceName
  end.

(** ** Property names *)

(** The value of a decimal digit. *)
Definition digitValue (c : ascii) : option N :=
  let n := N_of_ascii c in
  if decide (48 ≤ n ∧ n ≤ 57)%N then Some (n - 48)%N else None.

(** The number that a string of decimal digits writes, after [sofar]. *)
Fixpoint digitsValue (s : string) (sofar : N) : option N :=
  match s with
  | EmptyString => Some sofar
  | String c rest =>
      match digitValue c with
      | Some d => digitsValue rest (10 * sofar + d)%N
      | None => None
      end
  end.

(** The array index that a property name is, if it is one: a number
    below [2^32 - 1] written in decimal without a leading zero. *)
Definition arrayIndex (name : string) : option N :=
  match name with
  | EmptyString => None
  | String c rest =>
      if decide (c = "0"%char ∧ rest ≠ EmptyString) then None
      else match digitsValue name 0 with
           | Some n => if decide (n < 4294967295)%N then Some n else None
           | None => None
           end
  end.

(** In the order of the own properties of an object, a new property
    called [name] comes before an existing one called [name']: array
    indices come first, in ascending order, and every other name comes
    after the names that are there. *)
Definition precedes (name name' : string) : bool :=
  match arrayIndex name, arrayIndex name' with
  | Some i, Some j => bool_decide (i < j)%N
  | Some _, None => true
  | None, _ => false
  end.

(** ** Catalog objects *)

Section Catalog.
Context {V : Type}.

(** A value held in a field of a definition object. *)
Inductive JsField :=
  | JsString (s : string)
  | JsOther (v : V).

(** Own enumerable fields of a plain object. *)
Definition JsObject := gmap string JsField.

(** [serviceOf<T>()] returns [{}]. *)
Definition serviceOf : JsObject := ∅.

(** [{ ...def, __name: name }] *)
Definition attachName (name : string) (def : JsObject) : JsObject :=
  <["__name" := JsString name]> def.

(** [result[name] = value] on the plain object [result], as far as its
    own fields go: an assignment to the name [__proto__] goes to the
    setter that a plain object inherits, which makes [value] the
    prototype of [result] and adds no own field. *)
Definition assignField (result : gmap string JsObject) (name : string)
    (value : JsObject) : gmap string JsObject :=
  if decide (name = "__proto__") then result else <[name := value]> result.

(** The loop of [defineCatalog], over the keys in the order [keys]:
    [result[name] = { ...catalog[name], __name: name }]. *)
Definition defineCatalogOver (keys : list string)
    (catalog : gmap string JsObject) : gmap string JsObject :=
  foldl (λ result name,
           assignField result name
             (attachName name (default ∅ (catalog !! name))))
        ∅ keys.

(** The prototype that the loop gives [result], if it gives it one. *)
Definition prototypeOver (keys : list string)
    (catalog : gmap string JsObject) : option JsObject :=
  foldl (λ prototype name,
           if decide (name = "__proto__")
           then Some (attachName name (default ∅ (catalog !! name)))
           else prototype)
        None keys.

(** [Object.keys(catalog)] in the order the map enumerates them. *)
Definition Object_keys (catalog : gmap string JsObject) : list string :=
  (map_to_list catalog).*1.

(** The own fields of the object that [defineCatalog] returns. *)
Definition defineCatalog (catalog : gmap string JsObject)
    : gmap string JsObject :=
  defineCatalogOver (Object_keys catalog) catalog.

(** The prototype of that object, if it is not that of a new plain
    object. *)
Definition defineCatalogPrototype (catalog : gmap string JsObject)
    : option JsObject :=
  prototypeOver (Object_keys catalog) catalog.

(** The type guard [isCatalogEntry], as the view it licenses: an object
    with a string [__name] is read as a catalog entry. *)
Definition isCatalogEntry (value : JsObject) : option CatalogEntry :=
  match value !! "__name" with
  | Some (JsString name) => Some {| __name := name |}
  | _ => None
  end.
End Catalog.
Arguments JsField : clear implicits.
Arguments JsObject : clear implicits.

(** ** Registry, request context and store *)

Section Services.
Context {V W : Type}.

(** [V] is the type of service instances: two instances are the same
    object when they are equal.

    [ServiceFactory<T> = () => T].  A factory is a closure: [W] is the
    state it closes over (a module counter, a connection pool), which a
    call may read and change.  The factories of this section return and
    call nothing of the library; those that throw or call back into it
    are the factories of the module [General] below. *)
Definition ServiceFactory : Type := W → V * W.

(** The private fields [#factories] and [#catalog] of a
    [ServiceProvider]. *)
Record ServiceProvider := {
  factories : gmap string ServiceFactory;
  catalog : option (gmap string (JsObject V))
}.

(** [new ServiceProvider(catalog)] *)
Definition newServiceProvider
    (catalog : option (gmap string (JsObject V))) : ServiceProvider :=
  {| factories := ∅; catalog := catalog |}.

Global Instance ServiceProvider_inhabited : Inhabited ServiceProvider :=
  populate (newServiceProvider None).

(** [provide]: both overloads end in [this.#factories.set(key, factoryFn)]. *)
Definition provide (routeOrEntry : ServiceIdentifier)
    (factoryFn : ServiceFactory) (this : ServiceProvider) : ServiceProvider :=
  match routeOrEntry with
  | CatalogId entry =>
      {| factories := <[__name entry := factoryFn]> (factories this);
         catalog := catalog this |}
  | RouteId route serviceName =>
      let key := routeKey route serviceName in
      {| factories := <[key := factoryFn]> (factories this);
         catalog := catalog this |}
  end.

(** [getFactory]: the route-specific key first, then the bare name.  A
    stored factory is a function, hence truthy: [!factory] holds exactly
    when [get] found nothing. *)
Definition getFactory (this : ServiceProvider) (route : Route)
    (serviceName : string) : option ServiceFactory :=
  let routeKey := routeKey route serviceName in
  match factories this !! routeKey with
  | Some factory => Some factory
  | None => factories this !! serviceName
  end.

(** The objects shared by reference, the state the factories close
    over, and a record of every factory call: the cache it was made for
    and the key it was stored under, most recent first. *)
Record Store := {
  maps : gmap loc (gmap string V);
  providers : gmap loc ServiceProvider;
  world : W;
  calls : list (loc * string)
}.

(** The [Map] at a location, and the provider at a location. *)
Definition mapAt (σ : Store) (l : loc) : gmap string V :=
  default ∅ (maps σ !! l).
Definition providerAt (σ : Store) (l : loc) : ServiceProvider :=
  default inhabitant (providers σ !! l).

(** [serviceProvider.provide(...)] on the provider object at [l]. *)
Definition provideAt (l : loc) (routeOrEntry : ServiceIdentifier)
    (factoryFn : ServiceFactory) (σ : Store) : Store :=
  {| maps := maps σ;
     providers := <[l := provide routeOrEntry factoryFn (providerAt σ l)]>
                    (providers σ);
     world := world σ;
     calls := calls σ |}.

(** A property of the [services] object: a plain value, or the getter
    that [withServices] defines, closed over [entry], [instances] and
    [provider]. *)
Inductive Property :=
  | DataProperty (value : V)
  | Getter (entry : CatalogEntry) (instances provider : loc).

(** An object as its own enumerable properties in property order: array
    indices ascending, then the other names in the order of creation. *)
Definition Services := list (string * Property).

(** [context.extra] *)
Record Extra := { services : option Services }.

(** What the library touches of a request context: the two storage
    slots, [SERVICE_PROVIDER_KEY] and [SERVICES_INSTANCE_KEY], and
    [extra]. *)
Record RequestContext := {
  storage_provider : option loc;
  storage_instances : option loc;
  extra : option Extra
}.

(** The context of a request on which no middleware has run yet. *)
Definition newContext : RequestContext :=
  {| storage_provider := None; storage_instances := None; extra := None |}.

(** ** with-service-provider.ts *)

(** [withServiceProvider(serviceProvider)], up to its call of [next()]. *)
Definition withServiceProvider (serviceProvider : loc)
    (context : RequestContext) : RequestContext :=
  {| storage_provider := Some serviceProvider;
     storage_instances := storage_instances context;
     extra := extra context |}.

Definition noProviderMessage : string :=
  "No service provider found. "
    +:+ "Make sure the withServiceProvider middleware is installed.".

Definition getServiceProvider (context : RequestContext) : Completion loc :=
  match storage_provider context with
  | None => Throw noProviderMessage
  | Some serviceProvider => Normal serviceProvider
  end.

(** ** with-services.ts *)

(** [new Map()] gets a location no object has. *)
Definition newLoc (σ : Store) : loc := fresh (dom (maps σ)).

Definition getServiceInstances (context : RequestContext) (σ : Store)
    : loc * RequestContext * Store :=
  match storage_instances context with
  | None =>
      let instances := newLoc σ in
      (instances,
       {| storage_provider := storage_provider context;
          storage_instances := Some instances;
          extra := extra context |},
       {| maps := <[instances := ∅]> (maps σ);
          providers := providers σ;
          world := world σ;
          calls := calls σ |})
  | Some instances => (instances, context, σ)
  end.

Definition didYouForget : string :=
  "Did you forget to call serviceProvider.provide()?".

(** The message of the catalog path. *)
Definition noFactoryMessage (name : string) : string :=
  "No factory registered for service " +:+ dquote +:+ name +:+ dquote
    +:+ ". " +:+ didYouForget.

(** The message of the route path. *)
Definition noRouteFactoryMessage (route : Route) (name : string) : string :=
  "No factory registered for service " +:+ dquote +:+ name +:+ dquote
    +:+ " on route " +:+ dquote +:+ method route +:+ space
    +:+ source (pattern route) +:+ dquote +:+ ". " +:+ didYouForget.

(** [let instance = factory(); instances.set(key, instance)], for a
    factory that returns. *)
Definition instantiate (factory : ServiceFactory) (instances : loc)
    (key : string) (σ : Store) : V * Store :=
  let '(instance, w) := factory (world σ) in
  (instance,
   {| maps :=
        <[instances := <[key := instance]> (mapAt σ instances)]> (maps σ);
      providers := providers σ;
      world := w;
      calls := (instances, key) :: calls σ |}).

Definition resolveServiceInternal (catalogEntryOrRoute : ServiceIdentifier)
    (instances provider : loc) (σ : Store) : Completion V * Store :=
  match catalogEntryOrRoute with
  | CatalogId entry =>
      let name := __name entry in
      let key := name in
      match mapAt σ instances !! key with
      | Some cached => (Normal cached, σ)
      | None =>
          match getFactory (providerAt σ provider) anyRoute name with
          | None => (Throw (noFactoryMessage name), σ)
          | Some factory =>
              let '(instance, σ') := instantiate factory instances key σ in
              (Normal instance, σ')
          end
      end
  | RouteId route name =>
      let key := routeKey route name in
      match mapAt σ instances !! key with
      | Some cached => (Normal cached, σ)
      | None =>
          match getFactory (providerAt σ provider) route name with
          | None => (Throw (noRouteFactoryMessage route name), σ)
          | Some factory =>
              let '(instance, σ') := instantiate factory instances key σ in
              (Normal instance, σ')
          end
      end
  end.

Definition resolveService (catalogEntryOrRoute : ServiceIdentifier)
    (context : RequestContext) (σ : Store)
    : Completion V * RequestContext * Store :=
  let '(instances, context, σ) := getServiceInstances context σ in
  match getServiceProvider context with
  | Throw message => (Throw message, context, σ)
  | Normal provider =>
      let '(result, σ) :=
        resolveServiceInternal catalogEntryOrRoute instances provider σ in
      (result, context, σ)
  end.

(** *** The [services] object *)

(** Reading a property: a getter runs
    [resolveServiceInternal(entry, instances, provider)]. *)
Definition readProperty (p : Property) (σ : Store) : Completion V * Store :=
  match p with
  | DataProperty value => (Normal value, σ)
  | Getter entry instances provider =>
      resolveServiceInternal (CatalogId entry) instances provider σ
  end.

(** [{ ...existingServices }]: every own enumerable property of the
    source is read, in property order, and its value becomes a plain
    property of the new object.  A read that throws ends the copy. *)
Fixpoint spread (existingServices : Services) (σ : Store)
    : Completion Services * Store :=
  match existingServices with
  | [] => (Normal [], σ)
  | (name, p) :: rest =>
      match readProperty p σ with
      | (Throw message, σ) => (Throw message, σ)
      | (Normal value, σ) =>
          match spread rest σ with
          | (Throw message, σ) => (Throw message, σ)
          | (Normal copied, σ) =>
              (Normal ((name, DataProperty value) :: copied), σ)
          end
      end
  end.

(** [Object.defineProperty(services, name, { get, enumerable: true,
    configurable: true })]: an existing property is redefined in place,
    a new one takes its place in the property order. *)
Fixpoint defineProperty (services : Services) (name : string)
    (p : Property) : Services :=
  match services with
  | [] => [(name, p)]
  | (name', p') :: rest =>
      if decide (name' = name) then (name, p) :: rest
      else if precedes name name' then (name, p) :: (name', p') :: rest
      else (name', p') :: defineProperty rest name p
  end.

(** The property called [name], if the object has one. *)
Fixpoint property (services : Services) (name : string) : option Property :=
  match services with
  | [] => None
  | (name', p) :: rest =>
      if decide (name' = name) then Some p else property rest name
  end.

(** [context.extra?.services ?? {}] *)
Definition existingServices (context : RequestContext) : Services :=
  match extra context with
  | Some {| services := Some existing |} => existing
  | _ => []
  end.

(** The middleware that [withServices(...entries)] returns. *)
Definition withServices (entries : list CatalogEntry)
    (context : RequestContext) (σ : Store)
    : Completion unit * RequestContext * Store :=
  let '(instances, context, σ) := getServiceInstances context σ in
  match getServiceProvider context with
  | Throw message => (Throw message, context, σ)
  | Normal provider =>
      match spread (existingServices context) σ with
      | (Throw message, σ) => (Throw message, context, σ)
      | (Normal services, σ) =>
          let services :=
            foldl (λ services entry,
                     defineProperty services (__name entry)
                       (Getter entry instances provider))
                  services entries in
          (Normal (),
           {| storage_provider := storage_provider context;
              storage_instances := storage_instances context;
              extra := Some {| services := Some services |} |},
           σ)
      end
  end.

(** Handler code reading the own property [name] of
    [context.extra?.services]; [None] when the object has no own property
    of that name, in which case the value comes from the prototype of
    the object. *)
Definition readService (name : string) (context : RequestContext)
    (σ : Store) : Completion (option V) * Store :=
  match property (existingServices context) name with
  | None => (Normal None, σ)
  | Some p =>
      match readProperty p σ with
      | (Throw message, σ) => (Throw message, σ)
      | (Normal value, σ) => (Normal (Some value), σ)
      end
  end.

(** *** What can happen during one request *)

Inductive Op :=
  | Install (serviceProvider : loc)
  | Register (provider : loc) (target : ServiceIdentifier)
             (factory : ServiceFactory)
  | Use (entries : list CatalogEntry)
  | Resolve (target : ServiceIdentifier)
  | Read (name : string).

Definition step (op : Op) (context : RequestContext) (σ : Store)
    : Completion (option V) * RequestContext * Store :=
  match op with
  | Install serviceProvider =>
      (Normal None, withServiceProvider serviceProvider context, σ)
  | Register provider target factory =>
      (Normal None, context, provideAt provider target factory σ)
  | Use entries =>
      match withServices entries context σ with
      | (Throw message, context, σ) => (Throw message, context, σ)
      | (Normal _, context, σ) => (Normal None, context, σ)
      end
  | Resolve target =>
      match resolveService target context σ with
      | (Throw message, context, σ) => (Throw message, context, σ)
      | (Normal value, context, σ) => (Normal (Some value), context, σ)
      end
  | Read name =>
      let '(result, σ) := readService name context σ in
      (result, context, σ)
  end.

(** The operations of a request in order; an error thrown by one of
    them is caught by the caller, and the request goes on. *)
Fixpoint run (ops : list Op) (context : RequestContext) (σ : Store)
    : list (Completion (option V)) * RequestContext * Store :=
  match ops with
  | [] => ([], context, σ)
  | op :: ops =>
      let '(result, context, σ) := step op context σ in
      let '(results, context, σ) := run ops context σ in
      (result :: results, context, σ)
  end.

(** How often a factory was called for [key] of the cache at
    [instances]. *)
Definition callCount (σ : Store) (instances : loc) (key : string) : nat :=
  length (filter (λ c, c = (instances, key)) (calls σ)).

(** *** Notions used to state the properties *)

(** The registry query of [resolveServiceInternal]: the catalog path
    asks [getFactory] for [anyRoute], the route path for its route. *)
Definition queryFactory (this : ServiceProvider)
    (target : ServiceIdentifier) : option ServiceFactory :=
  match target with
  | CatalogId entry => getFactory this anyRoute (__name entry)
  | RouteId route name => getFactory this route name
  end.

(** The message of the error thrown for [target]. *)
Definition notRegisteredMessage (target : ServiceIdentifier) : string :=
  match target with
  | CatalogId entry => noFactoryMessage (__name entry)
  | RouteId route name => noRouteFactoryMessage route name
  end.

(** The store with a new empty [Map] at [newLoc]. *)
Definition withNewMap (σ : Store) : Store :=
  {| maps := <[newLoc σ := ∅]> (maps σ);
     providers := providers σ;
     world := world σ;
     calls := calls σ |}.

(** The three ways in which the library changes the store: a factory
    is called for a key its cache does not hold, a [Map] is created,
    a factory is registered. *)
Inductive mutation : Store → Store → Prop :=
  | mutation_instantiate factory instances key σ :
      mapAt σ instances !! key = None →
      mutation σ (instantiate factory instances key σ).2
  | mutation_newMap σ :
      mutation σ (withNewMap σ)
  | mutation_provide l target factory σ :
      mutation σ (provideAt l target factory σ).

(** [σ'] is reached from [σ] by such changes. *)
Definition evolves : Store → Store → Prop := rtc mutation.

(** Every cached instance of [σ] is still cached, unchanged, in [σ']. *)
Definition entriesKept (σ σ' : Store) : Prop :=
  ∀ l key value, mapAt σ l !! key = Some value →
                 mapAt σ' l !! key = Some value.


(** The second context belongs to the same request as the first: a
    storage slot that was set is still set, and the instance cache is
    the same object. *)
Definition sameRequest (context context' : RequestContext) : Prop :=
  (is_Some (storage_provider context) →
   is_Some (storage_provider context')) ∧
  (∀ l, storage_instances context = Some l →
        storage_instances context' = Some l).

(** Every getter of a [services] object is closed over the cache at
    [instances]. *)
Definition gettersUse (instances : loc) (services : Services) : Prop :=
  ∀ name entry i provider,
    (name, Getter entry i provider) ∈ services → i = instances.

(** As long as no provider is installed on a request, its cache is empty
    and it has no [services] object. *)
Definition cacheNeedsProvider (context : RequestContext) (σ : Store) : Prop :=
  storage_provider context = None →
  existingServices context = []
  ∧ ∀ l, storage_instances context = Some l → mapAt σ l = ∅.
End Services.

Arguments ServiceFactory : clear implicits.
Arguments ServiceProvider : clear implicits.
Arguments Store : clear implicits.
Arguments Property : clear implicits.
Arguments Services : clear implicits.
Arguments Extra : clear implicits.
Arguments RequestContext : clear implicits.
Arguments Op : clear implicits.

(** [s] has a colon in it. *)
Fixpoint hasColon (s : string) : bool :=
  match s with
  | EmptyString => false
  | String c rest => if decide (c = ":"%char) then true else hasColon rest
  end.

(** ** A small application for the examples

    Services are numbered objects and the factories share a counter, as
    in the tests of the library. *)

Definition counter : CatalogEntry := {| __name := "counter" |}.
Definition logger : CatalogEntry := {| __name := "logger" |}.
Definition svc : CatalogEntry := {| __name := "svc" |}.

(** [() => { requestCount++; return { id: requestCount } }] *)
Definition nextId : ServiceFactory nat nat := λ count, (S count, S count).

(** [() => value] *)
Definition always (value : nat) : ServiceFactory nat nat :=
  λ count, (value, count).

Definition emptyProvider : ServiceProvider nat nat := newServiceProvider None.

(** The store of a process whose only provider, at location 0, is [p]. *)
Definition storeOf (p : ServiceProvider nat nat) : Store nat nat :=
  {| maps := ∅; providers := {[ 0 := p ]}; world := 0; calls := [] |}.

(** A request on which [withServiceProvider] has run for that provider. *)
Definition installed : RequestContext nat := withServiceProvider 0 newContext.

Definition counterApp : ServiceProvider nat nat :=
  provide (CatalogId counter) nextId emptyProvider.

(** A factory for [anyRoute] and the name [svc], registered through the
    route overload. *)
Definition routeOnly : ServiceProvider nat nat :=
  provide (RouteId anyRoute "svc") (always 1) emptyProvider.

(** The same, and a factory for the catalog entry [svc]. *)
Definition shadowed : ServiceProvider nat nat :=
  provide (CatalogId svc) (always 2) routeOnly.

(** Two routes and names with the same composite key. *)
Definition usersById : Route :=
  {| method := "GET"; pattern := {| source := "/users/:id" |} |}.
Definition users : Route :=
  {| method := "GET"; pattern := {| source := "/users/" |} |}.

Definition svcApp : ServiceProvider nat nat :=
  provide (CatalogId svc) (always 7) emptyProvider.

(** The request after [resolveService(usersById, 'svc')]. *)
Definition afterFirst
    : list (Completion (option nat)) * RequestContext nat * Store nat nat :=
  run [Resolve (RouteId usersById "svc")] installed (storeOf svcApp).

(** A catalog with one definition that has a field. *)
Definition smallCatalog : gmap string (JsObject nat) :=
  {[ "postRepository" := serviceOf;
     "userRepository" := {[ "__serviceType" := JsOther 5 ]} ]}.

(** A catalog whose one own key is [__proto__], as a computed key in
    an object literal or a parsed JSON text makes it. *)
Definition protoCatalog : gmap string (JsObject nat) :=
  {[ "__proto__" := serviceOf ]}.

(** A factory for the route [usersById] and the name [svc], and one
    for the catalog entry [svc]. *)
Definition bothRegistered : ServiceProvider nat nat :=
  provide (CatalogId svc) (always 2)
    (provide (RouteId usersById "svc") (always 1) emptyProvider).

(** A request in which two adapters run and no property is read. *)
Definition twoAdapters : list (Op nat nat) := [Use [counter]; Use [logger]].

(** ** Further notions *)

(** The names an application would choose: no colon in a service name,
    none in the method of a route. *)
Definition wellNamed (target : ServiceIdentifier) : bool :=
  match target with
  | CatalogId entry => negb (hasColon (__name entry))
  | RouteId route name => negb (hasColon (method route)) && negb (hasColon name)
  end.

(** What a handler gets when it reads a property whose getter resolved
    to [result]. *)
Definition asRead {V} (result : Completion V) : Completion (option V) :=
  match result with
  | Normal value => Normal (Some value)
  | Throw message => Throw message
  end.

Section FurtherNotions.
Context {V W : Type}.

(** Every property of the object is a plain value. *)
Definition plainOnly (services : Services V) : Prop :=
  ∀ name p, (name, p) ∈ services → ∃ value, p = DataProperty value.

(** The object agrees with the cache at [l]: a plain property holds the
    instance cached under its name, and a getter is closed over that
    cache and an entry of its own name. *)
Definition agreeOn (l : loc) (services : Services V) (σ : Store V W)
    : Prop :=
  ∀ name p,
    (name, p) ∈ services →
    match p with
    | DataProperty value => mapAt σ l !! name = Some value
    | Getter entry instances _ => instances = l ∧ __name entry = name
    end.

(** The [services] object of the request agrees with the request's
    cache; a request without a cache has no such object. *)
Definition servicesAgree (context : RequestContext V) (σ : Store V W)
    : Prop :=
  match storage_instances context with
  | Some l => agreeOn l (existingServices context) σ
  | None => existingServices context = []
  end.
End FurtherNotions.

(** A request on which the adapter for [counter] has run. *)
Definition counterAttached
    : Completion unit * RequestContext nat * Store nat nat :=
  withServices [counter] installed (storeOf counterApp).

(** A request on which the adapter for the unregistered [logger] has
    run. *)
Definition loggerAttached
    : Completion unit * RequestContext nat * Store nat nat :=
  withServices [logger] installed (storeOf counterApp).


(** A new request on which the provider is installed and two adapters
    have run. *)
Definition afterTwoAdapters
    : list (Completion (option nat)) * RequestContext nat * Store nat nat :=
  run (Install 0 :: twoAdapters) newContext (storeOf counterApp).

(** * Factories in general

    The definitions above take a factory to be a function that returns:
    it reads and changes the state it closes over and gives an instance.
    A factory of the library is any closure [() => T]: its call may also
    throw, call [resolveService] (for its own identifier too) and
    register factories.  The module below embeds the same source
    functions for such factories.  A call of [resolveService] inside a
    factory runs a factory in turn, so the functions take a bound [fuel]
    on the depth of such calls; [None] says that the bound was reached. *)

Module General.
Section General.
Context {V W : Type}.

(** What a call of a factory does, step by step: return an instance,
    throw, read or change the state it closes over, call
    [resolveService(...)] and go on with what that call returned or
    threw, call [provider.provide(...)] on the provider at [provider]. *)
Inductive ServiceFactory : Type :=
  | Return (instance : V)
  | Raise (message : string)
  | ReadState (next : W → ServiceFactory)
  | WriteState (update : W → W) (next : ServiceFactory)
  | CallResolveService (target : ServiceIdentifier)
                       (next : Completion V → ServiceFactory)
  | CallProvide (provider : loc) (target : ServiceIdentifier)
                (factory : ServiceFactory) (next : ServiceFactory).

Record ServiceProvider := {
  factories : gmap string ServiceFactory;
  catalog : option (gmap string (JsObject V))
}.

Definition newServiceProvider
    (catalog : option (gmap string (JsObject V))) : ServiceProvider :=
  {| factories := ∅; catalog := catalog |}.

Global Instance ServiceProvider_inhabited : Inhabited ServiceProvider :=
  populate (newServiceProvider None).

Definition provide (routeOrEntry : ServiceIdentifier)
    (factoryFn : ServiceFactory) (this : ServiceProvider) : ServiceProvider :=
  match routeOrEntry with
  | CatalogId entry =>
      {| factories := <[__name entry := factoryFn]> (factories this);
         catalog := catalog this |}
  | RouteId route serviceName =>
      let key := routeKey route serviceName in
      {| factories := <[key := factoryFn]> (factories this);
         catalog := catalog this |}
  end.

Definition getFactory (this : ServiceProvider) (route : Route)
    (serviceName : string) : option ServiceFactory :=
  let routeKey := routeKey route serviceName in
  match factories this !! routeKey with
  | Some factory => Some factory
  | None => factories this !! serviceName
  end.

(** As [Store] above; [calls] records a factory call when it starts. *)
Record Store := {
  maps : gmap loc (gmap string V);
  providers : gmap loc ServiceProvider;
  world : W;
  calls : list (loc * string)
}.

Definition mapAt (σ : Store) (l : loc) : gmap string V :=
  default ∅ (maps σ !! l).
Definition providerAt (σ : Store) (l : loc) : ServiceProvider :=
  default inhabitant (providers σ !! l).

Definition provideAt (l : loc) (routeOrEntry : ServiceIdentifier)
    (factoryFn : ServiceFactory) (σ : Store) : Store :=
  {| maps := maps σ;
     providers := <[l := provide routeOrEntry factoryFn (providerAt σ l)]>
                    (providers σ);
     world := world σ;
     calls := calls σ |}.

Definition setWorld (w : W) (σ : Store) : Store :=
  {| maps := maps σ; providers := providers σ; world := w;
     calls := calls σ |}.

(** The record of a call that starts. *)
Definition recordCall (instances : loc) (key : string) (σ : Store) : Store :=
  {| maps := maps σ; providers := providers σ; world := world σ;
     calls := (instances, key) :: calls σ |}.

(** [instances.set(key, instance)] *)
Definition setInstance (instances : loc) (key : string) (instance : V)
    (σ : Store) : Store :=
  {| maps := <[instances := <[key := instance]> (mapAt σ instances)]> (maps σ);
     providers := providers σ;
     world := world σ;
     calls := calls σ |}.

(** What a call gives when it ends within the bound: how it completed,
    and the request context and the store it left. *)
Definition Result (A : Type) : Type :=
  option (Completion A * RequestContext V * Store).

(** [factory()], where [resolveService] stands for the function of that
    name as the factory can call it. *)
Fixpoint call
    (resolveService : ServiceIdentifier → RequestContext V → Store → Result V)
    (factory : ServiceFactory) (context : RequestContext V) (σ : Store)
    : Result V :=
  match factory with
  | Return instance => Some (Normal instance, context, σ)
  | Raise message => Some (Throw message, context, σ)
  | ReadState next => call resolveService (next (world σ)) context σ
  | WriteState update next =>
      call resolveService next context (setWorld (update (world σ)) σ)
  | CallResolveService target next =>
      match resolveService target context σ with
      | None => None
      | Some (completion, context, σ) =>
          call resolveService (next completion) context σ
      end
  | CallProvide provider target factory next =>
      call resolveService next context (provideAt provider target factory σ)
  end.

Definition newLoc (σ : Store) : loc := fresh (dom (maps σ)).

Definition getServiceInstances (context : RequestContext V) (σ : Store)
    : loc * RequestContext V * Store :=
  match storage_instances context with
  | None =>
      let instances := newLoc σ in
      (instances,
       {| storage_provider := storage_provider context;
          storage_instances := Some instances;
          extra := extra context |},
       {| maps := <[instances := ∅]> (maps σ);
          providers := providers σ;
          world := world σ;
          calls := calls σ |})
  | Some instances => (instances, context, σ)
  end.

(** [let instance = factory(); instances.set(key, instance);
    return instance]: an error thrown by the call leaves before the
    [set]. *)
Definition create
    (resolveService : ServiceIdentifier → RequestContext V → Store → Result V)
    (factory : ServiceFactory) (instances : loc) (key : string)
    (context : RequestContext V) (σ : Store) : Result V :=
  match call resolveService factory context (recordCall instances key σ) with
  | None => None
  | Some (Throw message, context, σ) => Some (Throw message, context, σ)
  | Some (Normal instance, context, σ) =>
      Some (Normal instance, context, setInstance instances key instance σ)
  end.

(** The body of [resolveServiceInternal]. *)
Definition resolveServiceInternalWith
    (resolveService : ServiceIdentifier → RequestContext V → Store → Result V)
    (catalogEntryOrRoute : ServiceIdentifier) (instances provider : loc)
    (context : RequestContext V) (σ : Store) : Result V :=
  match catalogEntryOrRoute with
  | CatalogId entry =>
      let name := __name entry in
      let key := name in
      match mapAt σ instances !! key with
      | Some cached => Some (Normal cached, context, σ)
      | None =>
          match getFactory (providerAt σ provider) anyRoute name with
          | None => Some (Throw (noFactoryMessage name), context, σ)
          | Some factory =>
              create resolveService factory instances key context σ
          end
      end
  | RouteId route name =>
      let key := routeKey route name in
      match mapAt σ instances !! key with
      | Some cached => Some (Normal cached, context, σ)
      | None =>
          match getFactory (providerAt σ provider) route name with
          | None => Some (Throw (noRouteFactoryMessage route name), context, σ)
          | Some factory =>
              create resolveService factory instances key context σ
          end
      end
  end.

Fixpoint resolveService (fuel : nat) (catalogEntryOrRoute : ServiceIdentifier)
    (context : RequestContext V) (σ : Store) : Result V :=
  match fuel with
  | 0 => None
  | S fuel =>
      let '(instances, context, σ) := getServiceInstances context σ in
      match getServiceProvider context with
      | Throw message => Some (Throw message, context, σ)
      | Normal provider =>
          resolveServiceInternalWith (resolveService fuel)
            catalogEntryOrRoute instances provider context σ
      end
  end.

(** [resolveServiceInternal], in which a factory can call
    [resolveService] to depth [fuel]. *)
Definition resolveServiceInternal (fuel : nat)
    (catalogEntryOrRoute : ServiceIdentifier) (instances provider : loc)
    (context : RequestContext V) (σ : Store) : Result V :=
  resolveServiceInternalWith (resolveService fuel)
    catalogEntryOrRoute instances provider context σ.

Definition readProperty (fuel : nat) (p : Property V)
    (context : RequestContext V) (σ : Store) : Result V :=
  match p with
  | DataProperty value => Some (Normal value, context, σ)
  | Getter entry instances provider =>
      resolveServiceInternal fuel (CatalogId entry) instances provider
        context σ
  end.

Fixpoint spread (fuel : nat) (existingServices : Services V)
    (context : RequestContext V) (σ : Store) : Result (Services V) :=
  match existingServices with
  | [] => Some (Normal [], context, σ)
  | (name, p) :: rest =>
      match readProperty fuel p context σ with
      | None => None
      | Some (Throw message, context, σ) => Some (Throw message, context, σ)
      | Some (Normal value, context, σ) =>
          match spread fuel rest context σ with
          | None => None
          | Some (Throw message, context, σ) =>
              Some (Throw message, context, σ)
          | Some (Normal copied, context, σ) =>
              Some (Normal ((name, DataProperty value) :: copied), context, σ)
          end
      end
  end.

Definition withServices (fuel : nat) (entries : list CatalogEntry)
    (context : RequestContext V) (σ : Store) : Result unit :=
  let '(instances, context, σ) := getServiceInstances context σ in
  match getServiceProvider context with
  | Throw message => Some (Throw message, context, σ)
  | Normal provider =>
      match spread fuel (existingServices context) context σ with
      | None => None
      | Some (Throw message, context, σ) => Some (Throw message, context, σ)
      | Some (Normal services, context, σ) =>
          let services :=
            foldl (λ services entry,
                     defineProperty services (__name entry)
                       (Getter entry instances provider))
                  services entries in
          Some (Normal (),
                {| storage_provider := storage_provider context;
                   storage_instances := storage_instances context;
                   extra := Some {| services := Some services |} |},
                σ)
      end
  end.

(** Handler code reading an own property of [context.extra.services];
    [None] when the object has no own property of that name. *)
Definition readService (fuel : nat) (name : string)
    (context : RequestContext V) (σ : Store) : Result (option V) :=
  match property (existingServices context) name with
  | None => Some (Normal None, context, σ)
  | Some p =>
      match readProperty fuel p context σ with
      | None => None
      | Some (Throw message, context, σ) => Some (Throw message, context, σ)
      | Some (Normal value, context, σ) =>
          Some (Normal (Some value), context, σ)
      end
  end.

Inductive Op :=
  | Install (serviceProvider : loc)
  | Register (provider : loc) (target : ServiceIdentifier)
             (factory : ServiceFactory)
  | Use (entries : list CatalogEntry)
  | Resolve (target : ServiceIdentifier)
  | Read (name : string).

Definition step (fuel : nat) (op : Op) (context : RequestContext V)
    (σ : Store) : Result (option V) :=
  match op with
  | Install serviceProvider =>
      Some (Normal None, withServiceProvider serviceProvider context, σ)
  | Register provider target factory =>
      Some (Normal None, context, provideAt provider target factory σ)
  | Use entries =>
      match withServices fuel entries context σ with
      | None => None
      | Some (Throw message, context, σ) => Some (Throw message, context, σ)
      | Some (Normal _, context, σ) => Some (Normal None, context, σ)
      end
  | Resolve target =>
      match resolveService fuel target context σ with
      | None => None
      | Some (Throw message, context, σ) => Some (Throw message, context, σ)
      | Some (Normal value, context, σ) =>
          Some (Normal (Some value), context, σ)
      end
  | Read name => readService fuel name context σ
  end.

(** The operations of a request in order, an error of one of them
    being caught by the caller. *)
Fixpoint run (fuel : nat) (ops : list Op) (context : RequestContext V)
    (σ : Store)
    : option (list (Completion (option V)) * RequestContext V * Store) :=
  match ops with
  | [] => Some ([], context, σ)
  | op :: ops =>
      match step fuel op context σ with
      | None => None
      | Some (result, context, σ) =>
          match run fuel ops context σ with
          | None => None
          | Some (results, context, σ) =>
              Some (result :: results, context, σ)
          end
      end
  end.

Definition callCount (σ : Store) (instances : loc) (key : string) : nat :=
  length (filter (λ c, c = (instances, key)) (calls σ)).

(** The registry query of [resolveServiceInternal]. *)
Definition queryFactory (this : ServiceProvider)
    (target : ServiceIdentifier) : option ServiceFactory :=
  match target with
  | CatalogId entry => getFactory this anyRoute (__name entry)
  | RouteId route name => getFactory this route name
  end.

(** Every cached instance of [σ] is still cached, unchanged, in [σ']. *)
Definition entriesKept (σ σ' : Store) : Prop :=
  ∀ l key value, mapAt σ l !! key = Some value →
                 mapAt σ' l !! key = Some value.

(** The second context is the first one later in the same request,
    with the [extra] it had. *)
Definition follows (context context' : RequestContext V) : Prop :=
  sameRequest context context' ∧ extra context' = extra context.

(** What [resolveService] may be assumed to do when a factory calls it:
    it keeps what is cached, stays in the request and leaves [extra]. *)
Definition keeps
    (resolveService : ServiceIdentifier → RequestContext V → Store → Result V)
    : Prop :=
  ∀ target context σ completion context' σ',
    resolveService target context σ = Some (completion, context', σ') →
    entriesKept σ σ' ∧ follows context context'.



Definition cacheNeedsProvider (context : RequestContext V) (σ : Store)
    : Prop :=
  storage_provider context = None →
  existingServices context = []
  ∧ ∀ l, storage_instances context = Some l → mapAt σ l = ∅.
End General.
Arguments ServiceFactory : clear implicits.
Arguments ServiceProvider : clear implicits.
Arguments Store : clear implicits.
Arguments Op : clear implicits.
Arguments Result : clear implicits.
End General.

(** ** Factories that return

    A function of the state it closes over, as a factory in general: it
    reads the state, changes it and returns, and calls nothing. *)

Section Plain.
Context {V W : Type}.

Definition plain (f : ServiceFactory V W) : General.ServiceFactory V W :=
  General.ReadState (λ w,
    General.WriteState (λ _, (f w).2) (General.Return (f w).1)).

Definition plainProvider (p : ServiceProvider V W)
    : General.ServiceProvider V W :=
  {| General.factories := plain <$> factories p;
     General.catalog := catalog p |}.

Definition plainStore (σ : Store V W) : General.Store V W :=
  {| General.maps := maps σ;
     General.providers := plainProvider <$> providers σ;
     General.world := world σ;
     General.calls := calls σ |}.


(** The outcome of a function above, as an outcome in general. *)
Definition plainResult {A} (r : Completion A * RequestContext V * Store V W)
    : General.Result V W A :=
  Some (r.1.1, r.1.2, plainStore r.2).
End Plain.

(** ** Factories that throw or call back, for the examples *)

(** [() => { attempts++; if (attempts === 1) throw new
    Error('unavailable'); return service7 }] *)
Definition flaky : General.ServiceFactory nat nat :=
  General.ReadState (λ attempts,
    General.WriteState S
      (match attempts with
       | 0 => General.Raise "unavailable"
       | _ => General.Return 7
       end)).


(** The store of a process whose only provider, at location 0, has the
    factory [factory] for the catalog entry [svc]. *)
Definition generalStoreOf (factory : General.ServiceFactory nat nat)
    : General.Store nat nat :=
  {| General.maps := ∅;
     General.providers :=
       {[ 0 := General.provide (CatalogId svc) factory
                 (General.newServiceProvider None) ]};
     General.world := 0;
     General.calls := [] |}.


(** That request after [withServices(svc)]. *)
Definition svcAttached : RequestContext nat :=
  {| storage_provider := Some 0; storage_instances := Some 0;
     extra := Some {| services := Some [("svc", Getter svc 0 0)] |} |}.

(** [generalStoreOf flaky] after a call of [flaky] for the key [svc] of
    the cache at location 0 has thrown, the cache not being there yet. *)
Definition flakyFailed : General.Store nat nat :=
  {| General.maps := ∅;
     General.providers := General.providers (generalStoreOf flaky);
     General.world := 1;
     General.calls := [(0, "svc")] |}.

(** [generalStoreOf flaky] with the empty cache of the request. *)
Definition flakyCached : General.Store nat nat :=
  {| General.maps := {[ 0 := ∅ ]};
     General.providers := General.providers (generalStoreOf flaky);
     General.world := 0;
     General.calls := [] |}.

(** The same after that call has thrown. *)
Definition flakyFailedCached : General.Store nat nat :=
  {| General.maps := {[ 0 := ∅ ]};
     General.providers := General.providers (generalStoreOf flaky);
     General.world := 1;
     General.calls := [(0, "svc")] |}.



(** * Properties *)

(** ** Keys *)

Lemma hasColon_app (a b : string) : hasColon (a +:+ colon +:+ b) = true.
Proof.
  induction a as [|c a IH]; simpl; [done|].
  by destruct (decide (c = ":"%char)).
Qed.

(** A string is cut at its first colon in one way only. *)
Lemma first_colon_unique (a a' b b' : string) :
  hasColon a = false → hasColon a' = false →
  a +:+ colon +:+ b = a' +:+ colon +:+ b' → a = a' ∧ b = b'.
Proof.
  revert a'. induction a as [|c a IH]; intros [|c' a'] Ha Ha' E; simpl in *.
  - by inversion E.
  - inversion E; subst. by rewrite decide_True in Ha'.
  - inversion E; subst. by rewrite decide_True in Ha.
  - inversion E; subst c'.
    destruct (decide (c = ":"%char)); [done|].
    destruct (IH a') as [-> ->]; auto.
Qed.

Lemma routeKey_hasColon route name : hasColon (routeKey route name) = true.
Proof. apply hasColon_app. Qed.

Lemma length_append (a b : string) :
  String.length (a +:+ b) = String.length a + String.length b.
Proof. induction a as [|c a IH]; [done|]. simpl. by rewrite <- IH. Qed.

(** A composite key is longer than the name it ends in: no registration
    through the route overload writes the bare name of its own service. *)
Lemma routeKey_ne_name route name : routeKey route name ≠ name.
Proof.
  intros E. apply (f_equal String.length) in E. unfold routeKey in E.
  rewrite !length_append in E. simpl in E. lia.
Qed.

(** For a method and an entry name without colons, only the registration
    for [anyRoute] and the entry's own name has the key that the catalog
    path looks up first, and none has the bare name as its key. *)
Lemma catalog_keys_hit route name entryName :
  hasColon (method route) = false → hasColon entryName = false →
  (routeKey route name = routeKey anyRoute entryName ∨
   routeKey route name = entryName) ↔
  (route = anyRoute ∧ name = entryName).
Proof.
  intros Hm He. split.
  - intros [E|E].
    + destruct route as [m [s]]. unfold routeKey in E. simpl in *.
      apply (first_colon_unique m "ANY") in E as [-> E]; [|done|done].
      destruct s as [|c s]; simpl in E.
      * by inversion E.
      * injection E as _ E'. change (s +:+ colon +:+ name = entryName) in E'.
        rewrite <- E' in He.
        by rewrite (hasColon_app s name) in He.
    + rewrite <- E, routeKey_hasColon in He. done.
  - intros [-> ->]. by left.
Qed.

(** ** The registry *)

Section Registry.
Context {V W : Type}.
Implicit Types (p : ServiceProvider V W) (f g : ServiceFactory V W).
Implicit Types (σ : Store V W) (target : ServiceIdentifier).

Lemma provide_lookup target f p :
  factories (provide target f p) !! registryKey target = Some f.
Proof. destruct target; simpl; apply lookup_insert_eq. Qed.

Lemma provide_lookup_ne target f p key :
  key ≠ registryKey target →
  factories (provide target f p) !! key = factories p !! key.
Proof.
  intros Hne. destruct target; simpl in *; by rewrite lookup_insert_ne.
Qed.

Lemma provide_catalog target f p : catalog (provide target f p) = catalog p.
Proof. by destruct target. Qed.

Lemma getFactory_route p route name f :
  factories p !! routeKey route name = Some f →
  getFactory p route name = Some f.
Proof. unfold getFactory. by intros ->. Qed.

Lemma getFactory_fallback p route name :
  factories p !! routeKey route name = None →
  getFactory p route name = factories p !! name.
Proof. unfold getFactory. by intros ->. Qed.

Lemma getFactory_None p route name :
  getFactory p route name = None ↔
  factories p !! routeKey route name = None ∧ factories p !! name = None.
Proof.
  unfold getFactory. destruct (factories p !! routeKey route name).
  - split; [done | by intros [? _]].
  - split; [done | by intros [_ ?]].
Qed.

(** [getFactory] reads two keys of the registry and nothing else. *)
Lemma getFactory_ext p p' route name :
  factories p' !! routeKey route name = factories p !! routeKey route name →
  factories p' !! name = factories p !! name →
  getFactory p' route name = getFactory p route name.
Proof. unfold getFactory. by intros -> ->. Qed.

Lemma providerAt_provideAt l target f σ :
  providerAt (provideAt l target f σ) l = provide target f (providerAt σ l).
Proof. unfold providerAt, provideAt. simpl. by rewrite lookup_insert_eq. Qed.

Lemma providerAt_provideAt_ne l l' target f σ :
  l' ≠ l → providerAt (provideAt l target f σ) l' = providerAt σ l'.
Proof.
  intros Hne. unfold providerAt, provideAt. simpl. by rewrite lookup_insert_ne.
Qed.

Lemma mapAt_provideAt l target f σ l' :
  mapAt (provideAt l target f σ) l' = mapAt σ l'.
Proof. done. Qed.
End Registry.

(** ** One resolution *)

Section Resolution.
Context {V W : Type}.
Implicit Types (p : ServiceProvider V W) (f : ServiceFactory V W).
Implicit Types (σ : Store V W) (target : ServiceIdentifier).
Implicit Types (context : RequestContext V).

(** Both branches of [resolveServiceInternal] are the same algorithm on
    [cacheKey], [queryFactory] and [notRegisteredMessage]. *)
Lemma resolveServiceInternal_unfold target instances provider σ :
  resolveServiceInternal target instances provider σ =
  match mapAt σ instances !! cacheKey target with
  | Some cached => (Normal cached, σ)
  | None =>
      match queryFactory (providerAt σ provider) target with
      | None => (Throw (notRegisteredMessage target), σ)
      | Some factory =>
          let '(instance, σ') :=
            instantiate factory instances (cacheKey target) σ in
          (Normal instance, σ')
      end
  end.
Proof. by destruct target. Qed.

Lemma instantiate_value f instances key σ :
  (instantiate f instances key σ).1 = (f (world σ)).1.
Proof. unfold instantiate. by destruct (f (world σ)). Qed.

Lemma instantiate_store f instances key σ :
  (instantiate f instances key σ).2 =
  {| maps := <[instances := <[key := (f (world σ)).1]> (mapAt σ instances)]>
               (maps σ);
     providers := providers σ;
     world := (f (world σ)).2;
     calls := (instances, key) :: calls σ |}.
Proof. unfold instantiate. by destruct (f (world σ)). Qed.

Lemma mapAt_instantiate f instances key σ l :
  mapAt (instantiate f instances key σ).2 l =
  if decide (instances = l)
  then <[key := (f (world σ)).1]> (mapAt σ instances)
  else mapAt σ l.
Proof.
  rewrite instantiate_store. unfold mapAt at 1. simpl.
  case_decide as E.
  - subst. by rewrite lookup_insert_eq.
  - by rewrite lookup_insert_ne.
Qed.

Lemma resolve_cached target instances provider σ cached :
  mapAt σ instances !! cacheKey target = Some cached →
  resolveServiceInternal target instances provider σ = (Normal cached, σ).
Proof. intros H. by rewrite resolveServiceInternal_unfold, H. Qed.

Lemma resolve_unregistered target instances provider σ :
  mapAt σ instances !! cacheKey target = None →
  queryFactory (providerAt σ provider) target = None →
  resolveServiceInternal target instances provider σ =
  (Throw (notRegisteredMessage target), σ).
Proof. intros H1 H2. by rewrite resolveServiceInternal_unfold, H1, H2. Qed.

Lemma resolve_first target instances provider σ f :
  mapAt σ instances !! cacheKey target = None →
  queryFactory (providerAt σ provider) target = Some f →
  resolveServiceInternal target instances provider σ =
  (Normal (f (world σ)).1, (instantiate f instances (cacheKey target) σ).2).
Proof.
  intros H1 H2. rewrite resolveServiceInternal_unfold, H1, H2.
  rewrite <- instantiate_value with (instances := instances)
                                    (key := cacheKey target).
  by destruct (instantiate f instances (cacheKey target) σ).
Qed.

(** The three outcomes, told apart by the cache and the registry. *)
Lemma resolve_cases target instances provider σ :
  (∃ cached, mapAt σ instances !! cacheKey target = Some cached ∧
     resolveServiceInternal target instances provider σ = (Normal cached, σ))
  ∨ (mapAt σ instances !! cacheKey target = None ∧
     queryFactory (providerAt σ provider) target = None ∧
     resolveServiceInternal target instances provider σ =
       (Throw (notRegisteredMessage target), σ))
  ∨ (∃ f, mapAt σ instances !! cacheKey target = None ∧
     queryFactory (providerAt σ provider) target = Some f ∧
     resolveServiceInternal target instances provider σ =
       (Normal (f (world σ)).1,
        (instantiate f instances (cacheKey target) σ).2)).
Proof.
  destruct (mapAt σ instances !! cacheKey target) as [cached|] eqn:Hc.
  - left. eauto using resolve_cached.
  - destruct (queryFactory (providerAt σ provider) target) as [f|] eqn:Hq.
    + right; right. eauto using resolve_first.
    + right; left. eauto using resolve_unregistered.
Qed.

Lemma mapAt_withNewMap σ l : mapAt (withNewMap σ) l = mapAt σ l.
Proof.
  unfold mapAt, withNewMap. simpl.
  destruct (decide (newLoc σ = l)) as [<-|Hne].
  - rewrite lookup_insert_eq.
    assert (maps σ !! newLoc σ = None) as ->; [|done].
    apply not_elem_of_dom, is_fresh.
  - by rewrite lookup_insert_ne.
Qed.

Lemma getServiceInstances_unset context σ :
  storage_instances context = None →
  getServiceInstances context σ =
  (newLoc σ,
   {| storage_provider := storage_provider context;
      storage_instances := Some (newLoc σ);
      extra := extra context |},
   withNewMap σ).
Proof. unfold getServiceInstances. by intros ->. Qed.

Lemma getServiceInstances_set context σ instances :
  storage_instances context = Some instances →
  getServiceInstances context σ = (instances, context, σ).
Proof. unfold getServiceInstances. by intros ->. Qed.
End Resolution.

(** ** How the store and the context change during a request *)

Section Evolution.
Context {V W : Type}.
Implicit Types (σ : Store V W) (context : RequestContext V).
Implicit Types (target : ServiceIdentifier).

Lemma evolves_refl σ : evolves σ σ.
Proof. apply rtc_refl. Qed.

Lemma evolves_trans σ1 σ2 σ3 :
  evolves σ1 σ2 → evolves σ2 σ3 → evolves σ1 σ3.
Proof. apply rtc_trans. Qed.

Lemma evolves_once σ σ' : mutation σ σ' → evolves σ σ'.
Proof. apply rtc_once. Qed.

Lemma sameRequest_refl context : sameRequest context context.
Proof. by split. Qed.

Lemma sameRequest_trans (c1 c2 c3 : RequestContext V) :
  sameRequest c1 c2 → sameRequest c2 c3 → sameRequest c1 c3.
Proof. intros [A1 B1] [A2 B2]. split; auto. Qed.

Lemma mutation_entriesKept σ σ' : mutation σ σ' → entriesKept σ σ'.
Proof.
  intros [f instances key σ0 Hmiss|σ0|l target f σ0] l' key' value H.
  - rewrite mapAt_instantiate. case_decide as E; [subst l'|done].
    rewrite lookup_insert_ne; [done|]. intros ->. congruence.
  - by rewrite mapAt_withNewMap.
  - done.
Qed.

Lemma evolves_entriesKept σ σ' : evolves σ σ' → entriesKept σ σ'.
Proof.
  induction 1 as [σ|σ1 σ2 σ3 Hm _ IH]; [by intros ???|].
  intros l key value H. by apply IH, (mutation_entriesKept σ1 σ2).
Qed.






(** *** The functions of the library only make such changes *)

Lemma resolveServiceInternal_evolves target instances provider σ :
  evolves σ (resolveServiceInternal target instances provider σ).2.
Proof.
  destruct (resolve_cases target instances provider σ)
    as [(v & _ & ->)|[(_ & _ & ->)|(f & Hmiss & _ & ->)]]; simpl.
  - apply evolves_refl.
  - apply evolves_refl.
  - apply evolves_once. by constructor.
Qed.

Lemma getServiceInstances_evolves context σ :
  evolves σ (getServiceInstances context σ).2.
Proof.
  unfold getServiceInstances. destruct (storage_instances context); simpl.
  - apply evolves_refl.
  - apply evolves_once. apply mutation_newMap.
Qed.

Lemma getServiceInstances_sameRequest context σ :
  sameRequest context (getServiceInstances context σ).1.2.
Proof.
  unfold getServiceInstances.
  destruct (storage_instances context) eqn:E; simpl;
    [apply sameRequest_refl|].
  split; simpl; [done|]. intros l. by rewrite E.
Qed.

Lemma getServiceInstances_slot context σ :
  storage_instances (getServiceInstances context σ).1.2 =
  Some (getServiceInstances context σ).1.1.
Proof.
  unfold getServiceInstances. by destruct (storage_instances context) eqn:E.
Qed.

Lemma getServiceInstances_provider context σ :
  storage_provider (getServiceInstances context σ).1.2 =
  storage_provider context.
Proof.
  unfold getServiceInstances. by destruct (storage_instances context).
Qed.

Lemma resolveService_evolves target context σ :
  evolves σ (resolveService target context σ).2 ∧
  sameRequest context (resolveService target context σ).1.2.
Proof.
  unfold resolveService.
  pose proof (getServiceInstances_evolves context σ) as He.
  pose proof (getServiceInstances_sameRequest context σ) as Hs.
  destruct (getServiceInstances context σ) as [[instances c1] σ1].
  simpl in *.
  destruct (getServiceProvider c1) as [provider|message]; [|done].
  pose proof (resolveServiceInternal_evolves target instances provider σ1).
  destruct (resolveServiceInternal target instances provider σ1); simpl in *.
  split; [by eapply evolves_trans|done].
Qed.

Lemma readProperty_evolves (p : Property V) σ :
  evolves σ (readProperty p σ).2.
Proof.
  destruct p as [value|entry instances provider];
    [apply evolves_refl | apply resolveServiceInternal_evolves].
Qed.

Lemma spread_evolves (existing : Services V) σ :
  evolves σ (spread existing σ).2.
Proof.
  revert σ. induction existing as [|[name p] rest IH]; intros σ; simpl.
  - apply evolves_refl.
  - pose proof (readProperty_evolves p σ) as H1.
    destruct (readProperty p σ) as [[value|message] σ1]; simpl in *; [|done].
    pose proof (IH σ1) as H2.
    destruct (spread rest σ1) as [[copied|message] σ2]; simpl in *;
      by eapply evolves_trans.
Qed.

Lemma withServices_evolves entries context σ :
  evolves σ (withServices entries context σ).2 ∧
  sameRequest context (withServices entries context σ).1.2.
Proof.
  unfold withServices.
  pose proof (getServiceInstances_evolves context σ) as He.
  pose proof (getServiceInstances_sameRequest context σ) as Hs.
  destruct (getServiceInstances context σ) as [[instances c1] σ1].
  simpl in *.
  destruct (getServiceProvider c1) as [provider|message]; [|done].
  pose proof (spread_evolves (existingServices c1) σ1) as H2.
  destruct (spread (existingServices c1) σ1) as [[copied|message] σ2];
    simpl in *.
  - split; [by eapply evolves_trans|].
    eapply sameRequest_trans; [done|]. by split.
  - split; [by eapply evolves_trans|done].
Qed.

Lemma readService_evolves name context σ :
  evolves σ (readService name context σ).2.
Proof.
  unfold readService.
  destruct (property (existingServices context) name) as [p|];
    [|apply evolves_refl].
  pose proof (readProperty_evolves p σ).
  by destruct (readProperty p σ) as [[value|message] σ1].
Qed.

Lemma step_evolves (op : Op V W) context σ :
  evolves σ (step op context σ).2 ∧
  sameRequest context (step op context σ).1.2.
Proof.
  destruct op as [sp|provider target factory|entries|target|name]; simpl.
  - split; [apply evolves_refl|]. split; simpl; [by eauto|done].
  - split; [|apply sameRequest_refl].
    apply evolves_once, mutation_provide.
  - pose proof (withServices_evolves entries context σ).
    by destruct (withServices entries context σ) as [[[[]|message] c1] σ1].
  - pose proof (resolveService_evolves target context σ).
    by destruct (resolveService target context σ)
      as [[[value|message] c1] σ1].
  - pose proof (readService_evolves name context σ).
    destruct (readService name context σ); simpl in *.
    split; [done|apply sameRequest_refl].
Qed.

Lemma run_evolves (ops : list (Op V W)) context σ :
  evolves σ (run ops context σ).2 ∧
  sameRequest context (run ops context σ).1.2.
Proof.
  revert context σ. induction ops as [|op ops IH]; intros context σ; simpl.
  - split; [apply evolves_refl|apply sameRequest_refl].
  - destruct (step_evolves op context σ) as [He Hs].
    destruct (step op context σ) as [[result c1] σ1]. simpl in *.
    destruct (IH c1 σ1) as [He' Hs'].
    destruct (run ops c1 σ1) as [[results c2] σ2]. simpl in *.
    split; [by eapply evolves_trans|by eapply sameRequest_trans].
Qed.
End Evolution.

(** ** Memoization *)

Section Memoization.
Context {V W : Type}.
Implicit Types (σ : Store V W) (context : RequestContext V).
Implicit Types (target : ServiceIdentifier).

(** A resolution that returns leaves what it returned in the cache. *)
Lemma resolve_Normal_cached target instances provider σ value σ' :
  resolveServiceInternal target instances provider σ = (Normal value, σ') →
  mapAt σ' instances !! cacheKey target = Some value.
Proof.
  destruct (resolve_cases target instances provider σ)
    as [(v & Hc & ->)|[(_ & _ & ->)|(f & Hmiss & _ & ->)]]; intros E.
  - by injection E as <- <-.
  - done.
  - injection E as <- <-.
    rewrite mapAt_instantiate, decide_True by done. apply lookup_insert_eq.
Qed.

(** Once an instance is cached, every later resolution against the
    same cache returns it and changes nothing. *)
Lemma resolve_again target instances provider σ value σ' :
  mapAt σ instances !! cacheKey target = Some value →
  evolves σ σ' →
  resolveServiceInternal target instances provider σ' = (Normal value, σ').
Proof.
  intros Hc He. apply resolve_cached. by apply (evolves_entriesKept σ σ').
Qed.

Lemma resolveService_inv target context σ result context' σ' :
  resolveService target context σ = (result, context', σ') →
  context' = (getServiceInstances context σ).1.2 ∧
  ((∃ message, storage_provider context = None ∧ result = Throw message ∧
               σ' = (getServiceInstances context σ).2)
   ∨ (∃ provider, storage_provider context = Some provider ∧
        resolveServiceInternal target (getServiceInstances context σ).1.1
          provider (getServiceInstances context σ).2 = (result, σ'))).
Proof.
  unfold resolveService, getServiceProvider.
  pose proof (getServiceInstances_provider context σ) as Hp.
  destruct (getServiceInstances context σ) as [[instances c1] σ1].
  simpl in *. rewrite Hp.
  destruct (storage_provider context) as [provider|].
  - destruct (resolveServiceInternal target instances provider σ1)
      as [r σ2] eqn:E.
    intros [= <- <- <-]. split; [done|]. right. eauto.
  - intros [= <- <- <-]. split; [done|]. left. eauto.
Qed.

Lemma getServiceInstances_cacheNeedsProvider context σ :
  cacheNeedsProvider context σ →
  cacheNeedsProvider (getServiceInstances context σ).1.2
    (getServiceInstances context σ).2.
Proof.
  intros H.
  destruct (storage_instances context) as [l|] eqn:E.
  { by rewrite (getServiceInstances_set _ _ _ E). }
  rewrite (getServiceInstances_unset _ _ E).
  intros Hp. simpl in *. destruct (H Hp) as [Hex _].
  split; [done|]. intros l [= <-]. rewrite mapAt_withNewMap.
  unfold mapAt. assert (maps σ !! newLoc σ = None) as ->; [|done].
  apply not_elem_of_dom, is_fresh.
Qed.

Lemma step_cacheNeedsProvider (op : Op V W) context σ :
  cacheNeedsProvider context σ →
  cacheNeedsProvider (step op context σ).1.2 (step op context σ).2.
Proof.
  intros H.
  destruct op as [sp|provider target factory|entries|target|name]; simpl.
  - by intros [=].
  - done.
  - unfold withServices, getServiceProvider.
    pose proof (getServiceInstances_cacheNeedsProvider context σ H) as H1.
    destruct (getServiceInstances context σ) as [[instances c1] σ1].
    simpl in *.
    destruct (storage_provider c1) as [provider|] eqn:Hp; [|done].
    destruct (spread (existingServices c1) σ1) as [[copied|message] σ2];
      simpl; intros Hnone; simpl in *; congruence.
  - unfold resolveService, getServiceProvider.
    pose proof (getServiceInstances_cacheNeedsProvider context σ H) as H1.
    destruct (getServiceInstances context σ) as [[instances c1] σ1].
    simpl in *.
    destruct (storage_provider c1) as [provider|] eqn:Hp; [|done].
    destruct (resolveServiceInternal target instances provider σ1)
      as [[value|message] σ2]; simpl; intros Hnone; congruence.
  - unfold readService.
    destruct (storage_provider context) as [provider|] eqn:Hp.
    + destruct (property (existingServices context) name) as [p|];
        [|simpl; intros ?; congruence].
      destruct (readProperty p σ) as [[value|message] σ1];
        simpl; intros ?; congruence.
    + destruct (H Hp) as [-> _]. simpl. by intros _; apply H.
Qed.

Lemma run_cacheNeedsProvider (ops : list (Op V W)) context σ :
  cacheNeedsProvider context σ →
  cacheNeedsProvider (run ops context σ).1.2 (run ops context σ).2.
Proof.
  revert context σ. induction ops as [|op ops IH]; intros context σ H;
    simpl; [done|].
  apply (step_cacheNeedsProvider op) in H.
  destruct (step op context σ) as [[result c1] σ1]. simpl in *.
  apply IH in H. by destruct (run ops c1 σ1) as [[results c2] σ2].
Qed.

End Memoization.

(** ** Precedence between route and catalog registrations *)

Section Precedence.
Context {V W : Type}.
Implicit Types (p : ServiceProvider V W) (f g : ServiceFactory V W).
Implicit Types (σ : Store V W) (target : ServiceIdentifier).

(** C2, amended. [getFactory] returns the factory stored under the
    composite key if there is one, else the one under the bare name if
    there is one, else nothing.  With a factory registered for a route
    and a name and another under the bare name, an uncached resolution
    through the route returns what the route's factory makes; an
    uncached resolution through the catalog entry returns what the
    catalog factory makes provided no factory is registered under the
    key of [anyRoute] and that name, the key the catalog path looks up
    first. *)
Theorem route_registration_wins p route name :
  (∀ f, factories p !! routeKey route name = Some f →
        getFactory p route name = Some f)
  ∧ (∀ g, factories p !! routeKey route name = None →
          factories p !! name = Some g →
          getFactory p route name = Some g)
  ∧ (factories p !! routeKey route name = None →
     factories p !! name = None →
     getFactory p route name = None)
  ∧ (∀ f g σ instances provider,
       providerAt σ provider = p →
       factories p !! routeKey route name = Some f →
       factories p !! name = Some g →
       (mapAt σ instances !! routeKey route name = None →
        (resolveServiceInternal (RouteId route name) instances provider σ).1
        = Normal (f (world σ)).1)
       ∧ (mapAt σ instances !! name = None →
          factories p !! routeKey anyRoute name = None →
          (resolveServiceInternal (CatalogId {| __name := name |})
             instances provider σ).1
          = Normal (g (world σ)).1)).
Proof.
  split; [|split; [|split]].
  - apply getFactory_route.
  - intros g H1 H2. by rewrite getFactory_fallback.
  - intros H1 H2. by apply getFactory_None.
  - intros f g σ instances provider Hp Hf Hg. split.
    + intros Hmiss.
      rewrite (resolve_first (RouteId route name) _ _ _ f); [done|done|].
      simpl. rewrite Hp. by apply getFactory_route.
    + intros Hmiss Hany.
      rewrite (resolve_first (CatalogId {| __name := name |}) _ _ _ g);
        [done|done|].
      simpl. rewrite Hp. by rewrite getFactory_fallback.
Qed.

(** C3, amended. The catalog path asks [getFactory] for [anyRoute]
    and the entry's name, so it returns the factory stored under the key
    of [anyRoute] and that name if there is one, else the one stored
    under the bare name.  A registration through the route overload
    whose key is neither of the two changes nothing on that path; when
    the method and the entry's name have no colon, the registrations
    that do are exactly those for [anyRoute] and the entry's name. *)
Theorem catalog_path_keys p entry :
  (∀ f, factories p !! routeKey anyRoute (__name entry) = Some f →
        queryFactory p (CatalogId entry) = Some f)
  ∧ (factories p !! routeKey anyRoute (__name entry) = None →
     queryFactory p (CatalogId entry) = factories p !! __name entry)
  ∧ (∀ route name f,
       routeKey route name ≠ routeKey anyRoute (__name entry) →
       routeKey route name ≠ __name entry →
       queryFactory (provide (RouteId route name) f p) (CatalogId entry)
       = queryFactory p (CatalogId entry)
       ∧ ∀ σ instances l,
           providerAt σ l = p →
           (resolveServiceInternal (CatalogId entry) instances l
              (provideAt l (RouteId route name) f σ)).1
           = (resolveServiceInternal (CatalogId entry) instances l σ).1)
  ∧ (∀ route name,
       hasColon (method route) = false →
       hasColon (__name entry) = false →
       (routeKey route name = routeKey anyRoute (__name entry) ∨
        routeKey route name = __name entry) ↔
       (route = anyRoute ∧ name = __name entry)).
Proof.
  split; [|split; [|split]].
  - apply getFactory_route.
  - apply getFactory_fallback.
  - intros route name f Hne1 Hne2.
    assert (queryFactory (provide (RouteId route name) f p) (CatalogId entry)
            = queryFactory p (CatalogId entry)) as Hq.
    { unfold queryFactory.
      apply getFactory_ext; apply (provide_lookup_ne (RouteId route name));
        simpl; congruence. }
    split; [done|]. intros σ instances l Hp.
    rewrite !resolveServiceInternal_unfold.
    rewrite providerAt_provideAt, mapAt_provideAt, Hp, Hq.
    destruct (mapAt σ instances !! cacheKey (CatalogId entry)); [done|].
    destruct (queryFactory p (CatalogId entry)) as [g|]; [|done].
    rewrite (surjective_pairing (instantiate g _ _ (provideAt _ _ _ _))).
    rewrite (surjective_pairing (instantiate g _ _ σ)).
    simpl. by rewrite !instantiate_value.
  - intros route name. apply catalog_keys_hit.
Qed.

(** C7, amended. [provide] stores the factory under the identifier's
    key, whatever was there; every other key and the catalog field keep
    what they had; in the store only the provider object changes.  After
    it, an uncached resolution of the same identifier returns what the
    new factory makes, for a catalog entry provided no factory is
    registered under the key of [anyRoute] and the entry's name. *)
Theorem provide_postcondition target f p :
  factories (provide target f p) !! registryKey target = Some f
  ∧ (∀ key, key ≠ registryKey target →
            factories (provide target f p) !! key = factories p !! key)
  ∧ catalog (provide target f p) = catalog p
  ∧ (∀ l σ,
       providerAt σ l = p →
       maps (provideAt l target f σ) = maps σ
       ∧ world (provideAt l target f σ) = world σ
       ∧ calls (provideAt l target f σ) = calls σ
       ∧ providerAt (provideAt l target f σ) l = provide target f p
       ∧ ∀ l', l' ≠ l →
               providers (provideAt l target f σ) !! l' = providers σ !! l')
  ∧ (∀ l σ instances,
       providerAt σ l = p →
       mapAt σ instances !! cacheKey target = None →
       match target with
       | CatalogId entry =>
           factories p !! routeKey anyRoute (__name entry) = None
       | RouteId _ _ => True
       end →
       (resolveServiceInternal target instances l
          (provideAt l target f σ)).1
       = Normal (f (world σ)).1).
Proof.
  split; [|split; [|split; [|split]]].
  - apply provide_lookup.
  - intros key. apply provide_lookup_ne.
  - apply provide_catalog.
  - intros l σ Hp. repeat split.
    + by rewrite providerAt_provideAt, Hp.
    + intros l' Hne. simpl. by rewrite lookup_insert_ne.
  - intros l σ instances Hp Hmiss Hfree.
    rewrite (resolve_first target _ _ _ f); [done|done|].
    rewrite providerAt_provideAt, Hp.
    destruct target as [entry|route name]; unfold queryFactory.
    + rewrite getFactory_fallback;
        [apply (provide_lookup (CatalogId entry))|].
      rewrite (provide_lookup_ne (CatalogId entry)); [done|].
      apply routeKey_ne_name.
    + apply getFactory_route, (provide_lookup (RouteId route name)).
Qed.
End Precedence.

(** ** Errors *)

Section Errors.
Context {V W : Type}.
Implicit Types (σ : Store V W) (context : RequestContext V).
Implicit Types (target : ServiceIdentifier).

Lemma append_assoc (a b c : string) : (a +:+ b) +:+ c = a +:+ b +:+ c.
Proof.
  induction a as [|x a IH]; [done|].
  change (String x ((a +:+ b) +:+ c) = String x (a +:+ b +:+ c)).
  by rewrite IH.
Qed.

Lemma occurs_in_here (a s b : string) : occurs_in s (a +:+ s +:+ b).
Proof. by exists a, b. Qed.

Lemma occurs_in_later (a s t : string) :
  occurs_in s t → occurs_in s (a +:+ t).
Proof.
  intros (before & after & ->). exists (a +:+ before), after.
  by rewrite append_assoc.
Qed.

(** The message names the service, and on the route path the method and
    the pattern as well. *)
Lemma notRegisteredMessage_names target :
  match target with
  | CatalogId entry =>
      occurs_in (dquote +:+ __name entry +:+ dquote)
                (notRegisteredMessage target)
  | RouteId route name =>
      occurs_in (dquote +:+ name +:+ dquote) (notRegisteredMessage target)
      ∧ occurs_in (dquote +:+ method route +:+ space
                     +:+ source (pattern route) +:+ dquote)
                  (notRegisteredMessage target)
  end.
Proof.
  destruct target as [entry|route name]; simpl.
  - exists "No factory registered for service ", (". " +:+ didYouForget).
    unfold noFactoryMessage. by rewrite !append_assoc.
  - split.
    + exists "No factory registered for service ",
             (" on route " +:+ dquote +:+ method route +:+ space
                +:+ source (pattern route) +:+ dquote +:+ ". "
                +:+ didYouForget).
      unfold noRouteFactoryMessage. by rewrite !append_assoc.
    + unfold noRouteFactoryMessage.
      do 5 apply occurs_in_later.
      exists EmptyString, (". " +:+ didYouForget).
      by rewrite !append_assoc.
Qed.

(** C6. [getServiceProvider] throws exactly when the provider slot of
    the request's storage is empty, with the message that says the
    middleware is missing; when the slot holds a provider, it returns
    that very provider.  It is a function of the context alone: it
    changes neither the context nor the store. *)
Theorem provider_missing_iff context :
  (throws (getServiceProvider context) ↔ storage_provider context = None)
  ∧ (∀ message, getServiceProvider context = Throw message →
                message = noProviderMessage)
  ∧ occurs_in "No service provider found" noProviderMessage
  ∧ occurs_in "withServiceProvider middleware" noProviderMessage
  ∧ (∀ serviceProvider,
       storage_provider context = Some serviceProvider ↔
       getServiceProvider context = Normal serviceProvider)
  ∧ (∀ serviceProvider,
       getServiceProvider (withServiceProvider serviceProvider context)
       = Normal serviceProvider).
Proof.
  unfold getServiceProvider.
  split; [|split; [|split; [|split; [|split]]]].
  - destruct (storage_provider context); simpl; split; done.
  - intros message. destruct (storage_provider context); congruence.
  - by exists EmptyString,
      ". Make sure the withServiceProvider middleware is installed.".
  - by exists "No service provider found. Make sure the ", " is installed.".
  - intros sp. destruct (storage_provider context); split; congruence.
  - done.
Qed.

(** C10. A resolution that throws leaves the store as it was: no entry
    is added to the cache, none is changed, no factory is called.  The
    store changes only on the path on which a factory was found and
    called, and then by that call and the one cache entry alone.  For
    [resolveService], which may first create the request's empty cache,
    every cache reads after a throw as it did before. *)
Theorem failed_resolution_atomic target instances provider σ :
  (∀ message σ',
     resolveServiceInternal target instances provider σ
     = (Throw message, σ') →
     σ' = σ)
  ∧ (∀ result σ',
       resolveServiceInternal target instances provider σ = (result, σ') →
       σ' = σ
       ∨ ∃ f, queryFactory (providerAt σ provider) target = Some f
              ∧ result = Normal (f (world σ)).1
              ∧ σ' = (instantiate f instances (cacheKey target) σ).2)
  ∧ (∀ context message context' σ',
       resolveService target context σ = (Throw message, context', σ') →
       (∀ l, mapAt σ' l = mapAt σ l)
       ∧ providers σ' = providers σ
       ∧ world σ' = world σ
       ∧ calls σ' = calls σ).
Proof.
  assert (∀ i p (τ : Store V W) message τ',
            resolveServiceInternal target i p τ = (Throw message, τ') →
            τ' = τ) as Hint.
  { intros i p τ message τ'.
    destruct (resolve_cases target i p τ)
      as [(v & Hc & ->)|[(Hc & Hq & ->)|(f & Hc & Hq & ->)]];
      congruence. }
  split; [|split].
  - apply Hint.
  - intros result σ'.
    destruct (resolve_cases target instances provider σ)
      as [(v & Hc & ->)|[(Hc & Hq & ->)|(f & Hc & Hq & ->)]];
      intros [= <- <-]; eauto.
  - intros context message context' σ' H.
    assert (∀ l, mapAt (getServiceInstances context σ).2 l = mapAt σ l
            ∧ providers (getServiceInstances context σ).2 = providers σ
            ∧ world (getServiceInstances context σ).2 = world σ
            ∧ calls (getServiceInstances context σ).2 = calls σ) as Hg.
    { intros l. unfold getServiceInstances.
      destruct (storage_instances context); simpl; [done|].
      split; [apply mapAt_withNewMap|done]. }
    apply resolveService_inv in H
      as [_ [(m & _ & _ & ->)|(p & _ & H)]].
    + split; [intros l; apply (Hg l) | apply (Hg 0)].
    + apply Hint in H as ->.
      split; [intros l; apply (Hg l) | apply (Hg 0)].
Qed.
End Errors.

(** ** The instance cache of a request *)

Section InstanceCache.
Context {V W : Type}.
Implicit Types (σ : Store V W) (context : RequestContext V).
Implicit Types (services : Services V).

Lemma spread_plain (existing : Services V) σ copied σ' :
  spread existing σ = (Normal copied, σ') →
  ∀ name p, (name, p) ∈ copied → ∃ value, p = DataProperty value.
Proof.
  revert σ copied σ'.
  induction existing as [|[n q] rest IH]; intros σ copied σ'; simpl.
  - intros [= <- <-] name p Hel. by apply elem_of_nil in Hel.
  - destruct (readProperty q σ) as [[value|message] σ1]; [|done].
    destruct (spread rest σ1) as [[copied'|message] σ2] eqn:E; [|done].
    intros [= <- <-] name p [[= -> ->]|Hel]%elem_of_cons; eauto.
Qed.

Lemma defineProperty_elem services name p n q :
  (n, q) ∈ defineProperty services name p →
  (n, q) ∈ services ∨ (n, q) = (name, p).
Proof.
  induction services as [|[n' q'] rest IH]; simpl.
  - intros ->%list_elem_of_singleton. by right.
  - case_decide as E.
    + intros [->|Hel]%elem_of_cons; [by right|].
      left. by apply elem_of_cons; right.
    + destruct (precedes name n').
      * intros [->|Hel]%elem_of_cons; [by right|by left].
      * intros [->|Hel]%elem_of_cons; [left; by apply elem_of_cons; left|].
        destruct (IH Hel) as [?|?]; [left|by right].
        by apply elem_of_cons; right.
Qed.

Lemma defineGetters_elem (entries : list CatalogEntry) services
    instances provider n q :
  (n, q) ∈ foldl (λ services entry,
                    defineProperty services (__name entry)
                      (Getter entry instances provider))
                 services entries →
  (n, q) ∈ services ∨ ∃ entry, q = Getter entry instances provider.
Proof.
  revert services. induction entries as [|entry entries IH];
    intros services; simpl; [by left|].
  intros [Hel|?]%IH; [|by right].
  apply defineProperty_elem in Hel as [?|[= _ ->]]; eauto.
Qed.

Lemma withServices_inv entries context σ context' σ' :
  withServices entries context σ = (Normal (), context', σ') →
  ∃ provider copied,
    storage_provider context = Some provider
    ∧ spread (existingServices (getServiceInstances context σ).1.2)
             (getServiceInstances context σ).2 = (Normal copied, σ')
    ∧ existingServices context' =
        foldl (λ services entry,
                 defineProperty services (__name entry)
                   (Getter entry (getServiceInstances context σ).1.1
                      provider))
              copied entries.
Proof.
  unfold withServices, getServiceProvider.
  pose proof (getServiceInstances_provider context σ) as Hp.
  destruct (getServiceInstances context σ) as [[instances c1] σ1].
  simpl in *. rewrite Hp.
  destruct (storage_provider context) as [provider|]; [|done].
  destruct (spread (existingServices c1) σ1) as [[copied|message] σ2];
    [|done].
  intros [= <- <-]. by exists provider, copied.
Qed.

(** C9. [getServiceInstances] leaves the request with its cache in
    the storage slot, and a further call returns that same cache and
    changes nothing.  When the slot was empty the cache is a new, empty
    [Map] and nothing else changes; when the slot was set the call
    returns what it holds and changes nothing.  Through all later
    operations of the request the slot keeps holding that cache;
    [resolveService] resolves against it, and so do the getters of the
    [services] object that [withServices] attaches. *)
Theorem instance_cache_shared context σ :
  let instances := (getServiceInstances context σ).1.1 in
  let context1 := (getServiceInstances context σ).1.2 in
  let σ1 := (getServiceInstances context σ).2 in
  storage_instances context1 = Some instances
  ∧ getServiceInstances context1 σ1 = (instances, context1, σ1)
  ∧ (storage_instances context = None →
     (instances ∉ dom (maps σ))
     ∧ maps σ1 = <[instances := ∅]> (maps σ)
     ∧ mapAt σ1 instances = ∅
     ∧ providers σ1 = providers σ
     ∧ world σ1 = world σ
     ∧ calls σ1 = calls σ
     ∧ storage_provider context1 = storage_provider context
     ∧ extra context1 = extra context)
  ∧ (∀ l, storage_instances context = Some l →
          instances = l ∧ context1 = context ∧ σ1 = σ)
  ∧ (∀ ops : list (Op V W),
       storage_instances (run ops context1 σ1).1.2 = Some instances)
  ∧ (∀ target provider,
       storage_provider context = Some provider →
       resolveService target context σ =
       ((resolveServiceInternal target instances provider σ1).1,
        context1,
        (resolveServiceInternal target instances provider σ1).2))
  ∧ (∀ entries context' σ',
       withServices entries context σ = (Normal (), context', σ') →
       gettersUse instances (existingServices context')).
Proof.
  intros instances context1 σ1.
  assert (storage_instances context1 = Some instances) as Hslot
    by apply getServiceInstances_slot.
  split; [done|]. split; [by apply getServiceInstances_set|].
  split; [|split; [|split; [|split]]].
  - intros Hnone. subst instances context1 σ1.
    rewrite (getServiceInstances_unset _ _ Hnone). simpl.
    split; [apply is_fresh|]. split; [done|].
    split; [|done]. unfold mapAt. simpl. by rewrite lookup_insert_eq.
  - intros l Hl. subst instances context1 σ1.
    by rewrite (getServiceInstances_set _ _ _ Hl).
  - intros ops. by apply (run_evolves ops context1 σ1).
  - intros target provider Hp. unfold resolveService, getServiceProvider.
    pose proof (getServiceInstances_provider context σ) as Hp'.
    subst instances context1 σ1.
    destruct (getServiceInstances context σ) as [[i c1] τ]. simpl in *.
    rewrite Hp', Hp. by destruct (resolveServiceInternal target i provider τ).
  - intros entries context' σ' H.
    apply withServices_inv in H as (provider & copied & _ & Hs & ->).
    intros name entry i p Hel.
    apply defineGetters_elem in Hel as [Hel|[entry' [= _ -> _]]]; [|done].
    by destruct (spread_plain _ _ _ _ Hs _ _ Hel).
Qed.
End InstanceCache.

(** ** The catalog *)

Section CatalogFacts.
Context {V : Type}.
Implicit Types (catalog : gmap string (JsObject V)) (def : JsObject V).
Implicit Types (keys : list string).

Lemma attach_loop_lookup catalog keys (result : gmap string (JsObject V))
    name :
  foldl (λ result name,
           assignField result name
             (attachName name (default ∅ (catalog !! name))))
        result keys !! name
  = if decide (name ∈ keys ∧ name ≠ "__proto__")
    then Some (attachName name (default ∅ (catalog !! name)))
    else result !! name.
Proof.
  revert result. induction keys as [|key keys IH]; intros result.
  - case_decide as Hin; [|done]. destruct Hin as [Hin _].
    by apply elem_of_nil in Hin.
  - simpl. rewrite IH. unfold assignField.
    destruct (decide (name ∈ keys ∧ name ≠ "__proto__")) as [[Hin Hp]|Hnot].
    + rewrite decide_True; [done|]. split; [|done].
      by apply elem_of_cons; right.
    + destruct (decide (key = "__proto__")) as [->|Hkey].
      * rewrite decide_False; [done|].
        intros [[->|Hin]%elem_of_cons Hp]; [done|]. by apply Hnot.
      * destruct (decide (key = name)) as [->|Hne].
        -- rewrite lookup_insert_eq, decide_True; [done|].
           split; [|done]. by apply elem_of_cons; left.
        -- rewrite lookup_insert_ne by done. rewrite decide_False; [done|].
           intros [[?|Hin]%elem_of_cons Hp]; [congruence|]. by apply Hnot.
Qed.

Lemma prototype_loop catalog keys (prototype : option (JsObject V)) :
  foldl (λ prototype name,
           if decide (name = "__proto__")
           then Some (attachName name (default ∅ (catalog !! name)))
           else prototype)
        prototype keys
  = if decide ("__proto__" ∈ keys)
    then Some (attachName "__proto__" (default ∅ (catalog !! "__proto__")))
    else prototype.
Proof.
  revert prototype. induction keys as [|key keys IH]; intros prototype.
  - case_decide as Hin; [|done]. by apply elem_of_nil in Hin.
  - simpl. rewrite IH. destruct (decide ("__proto__" ∈ keys)) as [Hin|Hnot].
    + rewrite decide_True; [done|]. by apply elem_of_cons; right.
    + destruct (decide (key = "__proto__")) as [->|Hkey].
      * rewrite decide_True; [done|]. by apply elem_of_cons; left.
      * rewrite decide_False; [done|].
        intros [?|?]%elem_of_cons; congruence.
Qed.

Lemma elem_of_Object_keys catalog name :
  name ∈ Object_keys catalog ↔ is_Some (catalog !! name).
Proof.
  unfold Object_keys. rewrite list_elem_of_fmap. split.
  - intros ([k def] & -> & Hel). apply elem_of_map_to_list in Hel. eauto.
  - intros [def Hdef]. exists (name, def). split; [done|].
    by apply elem_of_map_to_list.
Qed.

(** Over any list that has exactly the keys of the catalog, the loop
    attaches its name to every definition whose key is not [__proto__]
    and makes no other field. *)
Lemma defineCatalogOver_lookup catalog keys name :
  (∀ key, key ∈ keys ↔ is_Some (catalog !! key)) →
  defineCatalogOver keys catalog !! name
  = if decide (name = "__proto__") then None
    else attachName name <$> catalog !! name.
Proof.
  intros Hkeys. unfold defineCatalogOver. rewrite attach_loop_lookup.
  destruct (decide (name = "__proto__")) as [->|Hp].
  - rewrite decide_False by (by intros [_ ?]). apply lookup_empty.
  - case_decide as Hin.
    + destruct Hin as [Hin _]. apply Hkeys in Hin as [def ->]. done.
    + rewrite lookup_empty.
      destruct (catalog !! name) as [def|] eqn:E; [|done].
      exfalso. apply Hin. split; [|done]. apply Hkeys. eauto.
Qed.

Lemma prototypeOver_lookup catalog keys :
  (∀ key, key ∈ keys ↔ is_Some (catalog !! key)) →
  prototypeOver keys catalog
  = attachName "__proto__" <$> catalog !! "__proto__".
Proof.
  intros Hkeys. unfold prototypeOver. rewrite prototype_loop.
  case_decide as Hin.
  - apply Hkeys in Hin as [def ->]. done.
  - destruct (catalog !! "__proto__") as [def|] eqn:E; [|done].
    exfalso. apply Hin, Hkeys. eauto.
Qed.

Lemma defineCatalog_lookup catalog name :
  defineCatalog catalog !! name
  = if decide (name = "__proto__") then None
    else attachName name <$> catalog !! name.
Proof.
  apply defineCatalogOver_lookup. intros key. apply elem_of_Object_keys.
Qed.

(** C8, amended. The result of [defineCatalog] has, at every key of
    the input other than [__proto__] and at no other, the input's
    definition with the field [__name] set to the key and every other
    field as it was, which the guard [isCatalogEntry] reads as the
    catalog entry of that name.  The key [__proto__] gives the result no
    field: its definition, with the name attached, becomes the prototype
    of the result.  The result is a function of the input mapping alone:
    the loop over the keys in any other order gives the same. *)
Theorem defineCatalog_attaches_names catalog :
  (∀ name, name ≠ "__proto__" →
           defineCatalog catalog !! name
           = attachName name <$> catalog !! name)
  ∧ dom (defineCatalog catalog) = dom catalog ∖ {["__proto__"]}
  ∧ (∀ name def,
       name ≠ "__proto__" →
       catalog !! name = Some def →
       ∃ entry,
         defineCatalog catalog !! name = Some entry
         ∧ entry !! "__name" = Some (JsString name)
         ∧ (∀ field, field ≠ "__name" → entry !! field = def !! field)
         ∧ isCatalogEntry entry = Some {| __name := name |})
  ∧ defineCatalog catalog !! "__proto__" = None
  ∧ defineCatalogPrototype catalog
    = attachName "__proto__" <$> catalog !! "__proto__"
  ∧ (∀ keys, keys ≡ₚ Object_keys catalog →
             defineCatalogOver keys catalog = defineCatalog catalog
             ∧ prototypeOver keys catalog = defineCatalogPrototype catalog).
Proof.
  assert (∀ name, name ≠ "__proto__" →
                  defineCatalog catalog !! name
                  = attachName name <$> catalog !! name) as Hlookup.
  { intros name Hp. rewrite defineCatalog_lookup. by rewrite decide_False. }
  assert (defineCatalog catalog !! "__proto__" = None) as Hproto.
  { rewrite defineCatalog_lookup. by rewrite decide_True. }
  split; [done|]. split; [|split; [|split; [done|split]]].
  - apply set_eq. intros name.
    rewrite elem_of_difference, !elem_of_dom, elem_of_singleton.
    destruct (decide (name = "__proto__")) as [->|Hp].
    + rewrite Hproto. split; [by intros [? ?]|]. by intros [_ ?].
    + rewrite Hlookup, fmap_is_Some by done. split; [done|by intros [? _]].
  - intros name def Hp Hdef. exists (attachName name def).
    rewrite Hlookup, Hdef by done. split; [done|].
    unfold attachName, isCatalogEntry, JsObject in *.
    split; [apply lookup_insert_eq|].
    split; [|by rewrite lookup_insert_eq].
    intros field Hne. by rewrite lookup_insert_ne.
  - apply prototypeOver_lookup. intros key. apply elem_of_Object_keys.
  - intros keys Hperm.
    assert (∀ key, key ∈ keys ↔ is_Some (catalog !! key)) as Hkeys.
    { intros key. rewrite Hperm. apply elem_of_Object_keys. }
    split.
    + apply map_eq. intros name.
      by rewrite defineCatalog_lookup, defineCatalogOver_lookup.
    + rewrite (prototypeOver_lookup _ _ Hkeys). symmetry.
      apply prototypeOver_lookup. intros key. apply elem_of_Object_keys.
Qed.
End CatalogFacts.

(** ** The adapter [withServices] *)

Section Adapter.
Context {V W : Type}.
Implicit Types (σ : Store V W) (context : RequestContext V).
Implicit Types (services : Services V).

Lemma property_defineProperty services name p n :
  property (defineProperty services name p) n
  = if decide (name = n) then Some p else property services n.
Proof.
  induction services as [|[n' p'] rest IH]; simpl.
  - done.
  - destruct (decide (n' = name)) as [->|Hne]; simpl.
    + by destruct (decide (name = n)).
    + destruct (precedes name n'); simpl.
      * destruct (decide (name = n)) as [->|Hne'']; [done|].
        by destruct (decide (n' = n)).
      * rewrite IH. destruct (decide (n' = n)) as [->|Hne'].
        -- by rewrite decide_False by congruence.
        -- done.
Qed.

Lemma property_is_Some services n :
  is_Some (property services n) ↔ n ∈ services.*1.
Proof.
  induction services as [|[n' p'] rest IH]; simpl.
  - split; [by intros [? ?]|]. by intros ?%elem_of_nil.
  - rewrite elem_of_cons. destruct (decide (n' = n)) as [->|Hne].
    + split; [by left|eauto].
    + rewrite IH. split; [by right|]. by intros [?|?]; [congruence|].
Qed.

Lemma defineGetters_property (entries : list CatalogEntry) services
    instances provider n :
  is_Some (property (foldl (λ services entry,
                              defineProperty services (__name entry)
                                (Getter entry instances provider))
                           services entries) n)
  ↔ is_Some (property services n) ∨ n ∈ __name <$> entries.
Proof.
  revert services. induction entries as [|entry entries IH];
    intros services; simpl.
  - split; [by left|]. by intros [?|?%elem_of_nil].
  - rewrite IH, property_defineProperty, elem_of_cons.
    destruct (decide (__name entry = n)) as [->|Hne].
    + split; [by right; left|eauto].
    + split; [by intros [?|?]; [left|right; right]|].
      by intros [?|[?|?]]; [left|congruence|right].
Qed.

Lemma spread_names (existing : Services V) σ copied σ' :
  spread existing σ = (Normal copied, σ') → copied.*1 = existing.*1.
Proof.
  revert σ copied σ'.
  induction existing as [|[n q] rest IH]; intros σ copied σ'; simpl.
  - by intros [= <- <-].
  - destruct (readProperty q σ) as [[value|message] σ1]; [|done].
    destruct (spread rest σ1) as [[copied'|message] σ2] eqn:E; [|done].
    intros [= <- <-]. simpl. f_equal. eauto.
Qed.

Lemma getServiceInstances_existing context σ :
  existingServices (getServiceInstances context σ).1.2
  = existingServices context.
Proof.
  unfold getServiceInstances. by destruct (storage_instances context).
Qed.

(** When it returns, the adapter's object has the names it had before
    and the names of the entries, and no other. *)
Lemma withServices_additive entries context σ context' σ' n :
  withServices entries context σ = (Normal (), context', σ') →
  is_Some (property (existingServices context') n)
  ↔ is_Some (property (existingServices context) n)
    ∨ n ∈ __name <$> entries.
Proof.
  intros (provider & copied & _ & Hs & ->)%withServices_inv.
  rewrite defineGetters_property, !property_is_Some.
  by rewrite (spread_names _ _ _ _ Hs), getServiceInstances_existing.
Qed.

(** On a request that has no [services] object yet the adapter calls
    no factory: the store is as [getServiceInstances] leaves it. *)
Lemma withServices_first_lazy entries context σ :
  existingServices context = [] →
  (withServices entries context σ).2 = (getServiceInstances context σ).2
  ∧ calls (withServices entries context σ).2 = calls σ
  ∧ world (withServices entries context σ).2 = world σ.
Proof.
  intros Hnone.
  assert ((withServices entries context σ).2
          = (getServiceInstances context σ).2) as ->.
  { unfold withServices.
    pose proof (getServiceInstances_existing context σ) as He.
    destruct (getServiceInstances context σ) as [[instances c1] σ1].
    simpl in *. rewrite He, Hnone. simpl.
    by destruct (getServiceProvider c1). }
  split; [done|]. unfold getServiceInstances.
  by destruct (storage_instances context).
Qed.

(** Whatever it returns, the adapter leaves the store as reading every
    property of the earlier object, in order, leaves it. *)
Lemma withServices_store entries context σ provider :
  storage_provider context = Some provider →
  (withServices entries context σ).2
  = (spread (existingServices context) (getServiceInstances context σ).2).2.
Proof.
  intros Hp. unfold withServices, getServiceProvider.
  pose proof (getServiceInstances_existing context σ) as He.
  pose proof (getServiceInstances_provider context σ) as Hp'.
  destruct (getServiceInstances context σ) as [[instances c1] σ1].
  simpl in *. rewrite Hp', Hp, He.
  by destruct (spread (existingServices context) σ1) as [[copied|m] σ2].
Qed.
End Adapter.

(** * The properties on the example application *)

(** C4. With a factory registered for [counter], the adapter for
    [counter] alone calls no factory.  When the adapter for [logger] then
    runs on the same request, copying the earlier [services] object reads
    the getter of [counter]: the factory of [counter] has been called
    although no handler has read a property, and [counter] is a plain
    value in the new object.  With the adapters in the other order, the
    second one throws the error of the unregistered [logger] while it
    runs, and [counter] is not attached. *)
Theorem second_adapter_calls_factory :
  calls (run [Use [counter]] installed (storeOf counterApp)).2 = []
  ∧ (run twoAdapters installed (storeOf counterApp)).1.1
    = [Normal None; Normal None]
  ∧ calls (run twoAdapters installed (storeOf counterApp)).2
    = [(0, "counter")]
  ∧ world (run twoAdapters installed (storeOf counterApp)).2 = 1
  ∧ existingServices (run twoAdapters installed (storeOf counterApp)).1.2
    = [("counter", DataProperty 1); ("logger", Getter logger 0 0)]
  ∧ (run [Use [logger]; Use [counter]] installed (storeOf counterApp)).1.1
    = [Normal None; Throw (noFactoryMessage "logger")]
  ∧ existingServices
      (run [Use [logger]; Use [counter]] installed (storeOf counterApp)).1.2
    = [("logger", Getter logger 0 0)].
Proof. vm_compute. repeat split. Qed.

(** The scenarios of the tests: three resolutions in one request give
    the same instance, and three requests give three instances. *)
Example one_instance_per_request :
  (run [Resolve (CatalogId counter); Resolve (CatalogId counter);
        Resolve (CatalogId counter)] installed (storeOf counterApp)).1.1
  = [Normal (Some 1); Normal (Some 1); Normal (Some 1)]
  ∧ (let r1 := run [Use [counter]; Read "counter"] installed
                 (storeOf counterApp) in
     let r2 := run [Use [counter]; Read "counter"] installed r1.2 in
     let r3 := run [Use [counter]; Read "counter"] installed r2.2 in
     (r1.1.1, r2.1.1, r3.1.1))
    = ([Normal None; Normal (Some 1)], [Normal None; Normal (Some 2)],
       [Normal None; Normal (Some 3)]).
Proof. vm_compute. by split. Qed.

(** Counterexample to C2 as stated: with a factory registered for
    [anyRoute] and [svc] and another for the catalog entry [svc], the
    resolution through the catalog entry does not return what the catalog
    factory makes. *)
Lemma catalog_entry_gets_route_factory :
  ¬ (factories shadowed !! routeKey anyRoute "svc" = Some (always 1) →
     factories shadowed !! "svc" = Some (always 2) →
     mapAt (storeOf shadowed) 0 !! "svc" = None →
     (resolveServiceInternal (CatalogId svc) 0 0 (storeOf shadowed)).1
     = Normal (always 2 (world (storeOf shadowed))).1).
Proof.
  intros H.
  assert ((resolveServiceInternal (CatalogId svc) 0 0 (storeOf shadowed)).1
          = Normal 1) as E by (vm_compute; reflexivity).
  rewrite E in H. specialize (H eq_refl eq_refl eq_refl). discriminate H.
Qed.

(** Why the resolutions of C2 are those of a key that is not cached:
    the instance that the catalog factory made for the route stays the
    instance of the route when a factory is registered for the route
    afterwards. *)
Example cached_route_instance_stays :
  (run [Resolve (RouteId usersById "svc");
        Register 0 (RouteId usersById "svc") (always 1);
        Resolve (RouteId usersById "svc")]
     installed (storeOf (provide (CatalogId svc) (always 2) emptyProvider))).1.1
  = [Normal (Some 2); Normal None; Normal (Some 2)].
Proof. by vm_compute. Qed.

(** Witness of [route_registration_wins]. *)
Lemma route_registration_wins_witness :
  (providerAt (storeOf bothRegistered) 0 = bothRegistered
   ∧ factories bothRegistered !! routeKey usersById "svc" = Some (always 1)
   ∧ factories bothRegistered !! "svc" = Some (always 2)
   ∧ mapAt (storeOf bothRegistered) 0 !! routeKey usersById "svc" = None
   ∧ mapAt (storeOf bothRegistered) 0 !! "svc" = None
   ∧ factories bothRegistered !! routeKey anyRoute "svc" = None)
  ∧ (resolveServiceInternal (RouteId usersById "svc") 0 0
       (storeOf bothRegistered)).1 = Normal 1
  ∧ (resolveServiceInternal (CatalogId svc) 0 0
       (storeOf bothRegistered)).1 = Normal 2.
Proof.
  split; [vm_compute; repeat split|].
  destruct (proj2 (proj2 (proj2
              (@route_registration_wins nat nat bothRegistered usersById
                 "svc")))
              (always 1) (always 2) (storeOf bothRegistered) 0 0)
    as [Hroute Hcatalog]; [reflexivity..|].
  split.
  - apply Hroute. reflexivity.
  - apply Hcatalog; reflexivity.
Defined.

(** Counterexample to C3 as stated: the registry holds one factory,
    registered through the route overload, and the catalog path returns
    it. *)
Lemma catalog_path_returns_route_factory :
  ¬ (∀ f,
       factories routeOnly !! registryKey (RouteId anyRoute "svc") = Some f →
       queryFactory routeOnly (CatalogId svc) ≠ Some f)
  ∧ (resolveServiceInternal (CatalogId svc) 0 0 (storeOf routeOnly)).1
    = Normal 1.
Proof.
  split; [|vm_compute; reflexivity].
  intros H. apply (H (always 1)); reflexivity.
Qed.

(** Witness of [catalog_path_keys]. *)
Lemma catalog_path_keys_witness :
  (routeKey usersById "svc" ≠ routeKey anyRoute (__name svc)
   ∧ routeKey usersById "svc" ≠ __name svc)
  ∧ queryFactory (provide (RouteId usersById "svc") (always 1) svcApp)
      (CatalogId svc)
    = queryFactory svcApp (CatalogId svc).
Proof.
  assert (routeKey usersById "svc" ≠ routeKey anyRoute (__name svc)) as H1
    by (vm_compute; discriminate).
  assert (routeKey usersById "svc" ≠ __name svc) as H2
    by (vm_compute; discriminate).
  split; [by split|].
  apply (proj1 (proj2 (proj2 (@catalog_path_keys nat nat svcApp svc)))
           usersById "svc" (always 1) H1 H2).
Defined.

(** Counterexample to C5 as stated: after the resolution for the route
    [/users/:id] and the name [svc], the route [/users/] and the name
    [id:svc] have the same cache key; no factory is found for them, and
    their resolution returns the cached instance instead of throwing. *)
Lemma cached_without_factory :
  ¬ (throws (resolveService (RouteId users "id:svc")
               afterFirst.1.2 afterFirst.2).1.1
     ↔ queryFactory (providerAt afterFirst.2 0) (RouteId users "id:svc")
       = None).
Proof.
  intros [_ H]. specialize (H eq_refl). vm_compute in H. exact H.
Qed.

(** Witness of [provider_missing_iff]. *)
Lemma provider_missing_iff_witness :
  storage_provider (@newContext nat) = None
  ∧ throws (getServiceProvider (@newContext nat))
  ∧ storage_provider installed = Some 0
  ∧ getServiceProvider installed = Normal 0.
Proof.
  split; [reflexivity|]. split; [|split; [reflexivity|]].
  - apply (proj1 (@provider_missing_iff nat newContext)). reflexivity.
  - apply (proj1 (proj2 (proj2 (proj2 (proj2
               (@provider_missing_iff nat installed)))))).
    reflexivity.
Defined.

(** Counterexample to C7 as stated: the catalog entry [svc] is
    registered again with a new factory, and the next resolution of the
    entry still returns what the factory registered for [anyRoute]
    makes. *)
Lemma reregistered_entry_not_used :
  ¬ (mapAt (storeOf shadowed) 0 !! cacheKey (CatalogId svc) = None →
     (resolveServiceInternal (CatalogId svc) 0 0
        (provideAt 0 (CatalogId svc) (always 3) (storeOf shadowed))).1
     = Normal (always 3 (world (storeOf shadowed))).1).
Proof.
  intros H. specialize (H eq_refl). vm_compute in H. discriminate H.
Qed.

(** Witness of [provide_postcondition]. *)
Lemma provide_postcondition_witness :
  (providerAt (storeOf svcApp) 0 = svcApp
   ∧ mapAt (storeOf svcApp) 0 !! cacheKey (CatalogId svc) = None
   ∧ factories svcApp !! routeKey anyRoute (__name svc) = None)
  ∧ (resolveServiceInternal (CatalogId svc) 0 0
       (provideAt 0 (CatalogId svc) (always 3) (storeOf svcApp))).1
    = Normal 3.
Proof.
  split; [by vm_compute|].
  apply (proj2 (proj2 (proj2 (proj2
           (@provide_postcondition nat nat (CatalogId svc) (always 3)
              svcApp)))) 0 (storeOf svcApp) 0); reflexivity.
Defined.

(** Witness of [defineCatalog_attaches_names]. *)
Lemma defineCatalog_attaches_names_witness :
  "userRepository" ≠ "__proto__"
  ∧ smallCatalog !! "userRepository"
    = Some {[ "__serviceType" := JsOther 5 ]}
  ∧ ∃ entry,
      defineCatalog smallCatalog !! "userRepository" = Some entry
      ∧ entry !! "__name" = Some (JsString "userRepository")
      ∧ (∀ field, field ≠ "__name" →
           entry !! field
           = ({[ "__serviceType" := JsOther 5 ]} : JsObject nat) !! field)
      ∧ isCatalogEntry entry = Some {| __name := "userRepository" |}.
Proof.
  split; [discriminate|]. split; [reflexivity|].
  apply (proj1 (proj2 (proj2
           (@defineCatalog_attaches_names nat smallCatalog)))).
  - discriminate.
  - reflexivity.
Defined.

(** A catalog with the own key [__proto__] comes back without it: the
    result has no field of that name, and not the keys of the input. *)
Lemma proto_key_not_attached :
  protoCatalog !! "__proto__" = Some serviceOf
  ∧ defineCatalog protoCatalog !! "__proto__" = None
  ∧ ¬ (defineCatalog protoCatalog !! "__proto__"
       = attachName "__proto__" <$> protoCatalog !! "__proto__")
  ∧ ¬ (dom (defineCatalog protoCatalog) = dom protoCatalog)
  ∧ defineCatalogPrototype protoCatalog
    = Some (attachName "__proto__" serviceOf).
Proof.
  split; [reflexivity|]. split; [by vm_compute|].
  split; [by vm_compute|]. split; [|by vm_compute].
  intros Hdom.
  assert ("__proto__" ∈ dom protoCatalog) as Hin.
  { apply elem_of_dom. by eexists. }
  rewrite <- Hdom in Hin. apply elem_of_dom in Hin as [def Hdef].
  by vm_compute in Hdef.
Qed.

(** Witness of [instance_cache_shared]. *)
Lemma instance_cache_shared_witness :
  storage_instances installed = None
  ∧ ((getServiceInstances installed (storeOf counterApp)).1.1
     ∉ dom (maps (storeOf counterApp)))
  ∧ mapAt (getServiceInstances installed (storeOf counterApp)).2
      (getServiceInstances installed (storeOf counterApp)).1.1 = ∅.
Proof.
  split; [reflexivity|].
  destruct (proj1 (proj2 (proj2
              (@instance_cache_shared nat nat installed (storeOf counterApp))))
              eq_refl) as (Hfresh & _ & Hempty & _).
  by split.
Defined.

(** Witness of [failed_resolution_atomic]. *)
Lemma failed_resolution_atomic_witness :
  resolveServiceInternal (CatalogId logger) 0 0 (storeOf counterApp)
  = (Throw (noFactoryMessage "logger"),
     (resolveServiceInternal (CatalogId logger) 0 0 (storeOf counterApp)).2)
  ∧ (resolveServiceInternal (CatalogId logger) 0 0 (storeOf counterApp)).2
    = storeOf counterApp.
Proof.
  assert (resolveServiceInternal (CatalogId logger) 0 0 (storeOf counterApp)
          = (Throw (noFactoryMessage "logger"),
             (resolveServiceInternal (CatalogId logger) 0 0
                (storeOf counterApp)).2)) as H
    by (vm_compute; reflexivity).
  split; [exact H|].
  exact (proj1 (@failed_resolution_atomic nat nat (CatalogId logger) 0 0
                  (storeOf counterApp)) _ _ H).
Defined.

(** * Further properties *)

(** ** The key space *)

(** A string is cut at its last colon in one way only. *)
Lemma last_colon_unique (a a' n n' : string) :
  hasColon n = false → hasColon n' = false →
  a +:+ colon +:+ n = a' +:+ colon +:+ n' → a = a' ∧ n = n'.
Proof.
  intros Hn Hn'. revert a'.
  induction a as [|c a IH]; intros [|c' a'] E.
  - change (String ":" n = String ":" n') in E. by injection E as ->.
  - change (String ":" n = String c' (a' +:+ colon +:+ n')) in E.
    injection E as _ E. rewrite E, hasColon_app in Hn. done.
  - change (String c (a +:+ colon +:+ n) = String ":" n') in E.
    injection E as _ E. rewrite <- E, hasColon_app in Hn'. done.
  - change (String c (a +:+ colon +:+ n) = String c' (a' +:+ colon +:+ n'))
      in E.
    injection E as -> E. destruct (IH a' E) as [-> ->]. done.
Qed.

Lemma routeKey_inj route route' name name' :
  hasColon (method route) = false → hasColon (method route') = false →
  hasColon name = false → hasColon name' = false →
  routeKey route name = routeKey route' name' →
  route = route' ∧ name = name'.
Proof.
  destruct route as [m [s]], route' as [m' [s']]. unfold routeKey. simpl.
  intros Hm Hm' Hn Hn' E.
  apply first_colon_unique in E as [-> E]; [|done|done].
  apply last_colon_unique in E as [-> ->]; done.
Qed.

(** X1. Identifiers whose service names, and for routes whose methods,
    have no colon are stored under different keys when they differ: a
    route registration and a catalog registration never share a key, nor
    do two different routes or two different names.  So registering one
    such identifier leaves what is stored for every other one. *)
Theorem wellNamed_keys_distinct target target' :
  wellNamed target = true → wellNamed target' = true →
  (registryKey target = registryKey target' → target = target')
  ∧ (cacheKey target = cacheKey target' → target = target')
  ∧ (target ≠ target' →
     ∀ (V W : Type) (p : ServiceProvider V W) (f : ServiceFactory V W),
       factories (provide target f p) !! registryKey target'
       = factories p !! registryKey target').
Proof.
  intros Hw Hw'.
  assert (registryKey target = registryKey target' → target = target')
    as Hinj.
  { destruct target as [[n]|route name], target' as [[n']|route' name'];
      simpl in *.
    - by intros ->.
    - intros E. rewrite E, routeKey_hasColon in Hw. done.
    - intros E. rewrite <- E, routeKey_hasColon in Hw'. done.
    - apply andb_prop in Hw as [Hm Hn], Hw' as [Hm' Hn'].
      apply negb_true_iff in Hm, Hn, Hm', Hn'.
      intros E. by destruct (routeKey_inj _ _ _ _ Hm Hm' Hn Hn' E) as [-> ->]. }
  split; [done|]. split.
  - destruct target, target'; exact Hinj.
  - intros Hne V W p f. apply provide_lookup_ne. intros E. by apply Hne, Hinj.
Qed.

(** ** The registry, further *)

Section RegistryAlgebra.
Context {V W : Type}.
Implicit Types (p : ServiceProvider V W) (f g : ServiceFactory V W).
Implicit Types (target : ServiceIdentifier).

Lemma provide_factories target f p :
  factories (provide target f p) = <[registryKey target := f]> (factories p).
Proof. by destruct target. Qed.

Lemma provider_eq p p' :
  factories p = factories p' → catalog p = catalog p' → p = p'.
Proof. destruct p, p'. simpl. by intros -> ->. Qed.

(** X2. Registering twice under one identifier is registering the last
    factory alone, and registrations under different keys can be made in
    either order. *)
Theorem provide_last_wins_and_commutes target target' f g p :
  provide target g (provide target f p) = provide target g p
  ∧ (registryKey target ≠ registryKey target' →
     provide target f (provide target' g p)
     = provide target' g (provide target f p)).
Proof.
  split.
  - apply provider_eq; [|by rewrite !provide_catalog].
    rewrite !provide_factories. apply insert_insert_eq.
  - intros Hne. apply provider_eq; [|by rewrite !provide_catalog].
    rewrite !provide_factories. by apply insert_insert_ne.
Qed.

(** X3. What was registered for a route and a name is what [getFactory]
    returns for them; a factory registered for a catalog entry is what it
    returns for the entry's name on every route that has no factory of
    its own; a registration under any key other than the route's key and
    the bare name changes nothing for that route and name; and a new
    provider has no factory at all. *)
Theorem getFactory_after_provide p route name :
  (∀ f, getFactory (provide (RouteId route name) f p) route name = Some f)
  ∧ (∀ f, factories p !! routeKey route name = None →
          getFactory (provide (CatalogId {| __name := name |}) f p)
            route name
          = Some f)
  ∧ (∀ target f,
       registryKey target ≠ routeKey route name →
       registryKey target ≠ name →
       getFactory (provide target f p) route name = getFactory p route name)
  ∧ (∀ c, getFactory (newServiceProvider (V:=V) (W:=W) c) route name = None).
Proof.
  split; [|split; [|split]].
  - intros f. apply getFactory_route, (provide_lookup (RouteId route name)).
  - intros f Hnone. rewrite getFactory_fallback.
    + apply (provide_lookup (CatalogId {| __name := name |})).
    + rewrite provide_lookup_ne; [done|]. apply routeKey_ne_name.
  - intros target f Hne1 Hne2.
    apply getFactory_ext; by rewrite provide_lookup_ne.
  - intros c. unfold getFactory, newServiceProvider. simpl.
    by rewrite !lookup_empty.
Qed.
End RegistryAlgebra.

(** ** The catalog, further *)

Section CatalogAlgebra.
Context {V : Type}.
Implicit Types (catalog : gmap string (JsObject V)) (def : JsObject V).


End CatalogAlgebra.

(** ** Resolution, further *)

Section ResolutionFrame.
Context {V W : Type}.
Implicit Types (σ : Store V W) (context : RequestContext V).
Implicit Types (target : ServiceIdentifier).

Lemma getServiceInstances_store_frame context σ :
  providers (getServiceInstances context σ).2 = providers σ
  ∧ world (getServiceInstances context σ).2 = world σ
  ∧ calls (getServiceInstances context σ).2 = calls σ
  ∧ ∀ l, mapAt (getServiceInstances context σ).2 l = mapAt σ l.
Proof.
  destruct (storage_instances context) as [l|] eqn:E.
  - by rewrite (getServiceInstances_set _ _ _ E).
  - rewrite (getServiceInstances_unset _ _ E). simpl.
    repeat split. apply mapAt_withNewMap.
Qed.

Lemma providerAt_getServiceInstances context σ l :
  providerAt (getServiceInstances context σ).2 l = providerAt σ l.
Proof.
  unfold providerAt.
  by rewrite (proj1 (getServiceInstances_store_frame context σ)).
Qed.

Lemma resolveService_no_provider target context σ :
  storage_provider context = None →
  resolveService target context σ
  = (Throw noProviderMessage,
     (getServiceInstances context σ).1.2, (getServiceInstances context σ).2).
Proof.
  intros Hp. unfold resolveService, getServiceProvider.
  pose proof (getServiceInstances_provider context σ) as Hp'.
  destruct (getServiceInstances context σ) as [[instances c1] σ1].
  simpl in *. by rewrite Hp', Hp.
Qed.

Lemma resolveService_provider target context σ provider :
  storage_provider context = Some provider →
  resolveService target context σ
  = ((resolveServiceInternal target (getServiceInstances context σ).1.1
        provider (getServiceInstances context σ).2).1,
     (getServiceInstances context σ).1.2,
     (resolveServiceInternal target (getServiceInstances context σ).1.1
        provider (getServiceInstances context σ).2).2).
Proof.
  intros Hp. unfold resolveService, getServiceProvider.
  pose proof (getServiceInstances_provider context σ) as Hp'.
  destruct (getServiceInstances context σ) as [[instances c1] σ1].
  simpl in *. rewrite Hp', Hp.
  by destruct (resolveServiceInternal target instances provider σ1).
Qed.


End ResolutionFrame.

(** ** The adapter, further *)

Section AdapterFacts.
Context {V W : Type}.
Implicit Types (σ τ : Store V W) (context : RequestContext V).
Implicit Types (services : Services V) (entries : list CatalogEntry).

Lemma property_elem services name p :
  property services name = Some p → (name, p) ∈ services.
Proof.
  induction services as [|[n q] rest IH]; simpl; [done|].
  case_decide as E.
  - intros [= <-]. subst. by apply elem_of_cons; left.
  - intros H. apply elem_of_cons; right. auto.
Qed.

Lemma defineGetters_lookup entries services instances provider name :
  property (foldl (λ services entry,
                     defineProperty services (__name entry)
                       (Getter entry instances provider))
                  services entries) name
  = if decide (name ∈ __name <$> entries)
    then Some (Getter {| __name := name |} instances provider)
    else property services name.
Proof.
  revert services. induction entries as [|[n] entries IH]; intros services.
  - case_decide as E; [by apply elem_of_nil in E|done].
  - simpl. rewrite IH, property_defineProperty.
    destruct (decide (name ∈ __name <$> entries)) as [Hin|Hnotin].
    + rewrite decide_True; [done|]. by apply elem_of_cons; right.
    + destruct (decide (n = name)) as [->|Hne].
      * rewrite decide_True; [done|]. by apply elem_of_cons; left.
      * rewrite decide_False; [done|].
        intros [?|?]%elem_of_cons; [simpl in *; congruence | done].
Qed.

Lemma defineGetters_elem_named entries services instances provider n q :
  (n, q) ∈ foldl (λ services entry,
                    defineProperty services (__name entry)
                      (Getter entry instances provider))
                 services entries →
  (n, q) ∈ services
  ∨ ∃ entry, n = __name entry ∧ q = Getter entry instances provider.
Proof.
  revert services. induction entries as [|entry entries IH];
    intros services; simpl; [by left|].
  intros [Hel|?]%IH; [|by right].
  apply defineProperty_elem in Hel as [?|[= -> ->]]; eauto.
Qed.

Lemma spread_plainOnly services σ :
  plainOnly services → spread services σ = (Normal services, σ).
Proof.
  induction services as [|[n q] rest IH]; intros Hplain; simpl; [done|].
  destruct (Hplain n q) as [value ->]; [by apply elem_of_cons; left|].
  simpl. rewrite IH; [done|].
  intros n' q' Hel. apply (Hplain n' q'). by apply elem_of_cons; right.
Qed.

Lemma readProperty_throws (p : Property V) σ message σ' :
  readProperty p σ = (Throw message, σ') →
  ∃ entry instances provider,
    p = Getter entry instances provider
    ∧ message = noFactoryMessage (__name entry)
    ∧ σ' = σ.
Proof.
  destruct p as [value|entry instances provider]; [done|].
  unfold readProperty.
  destruct (resolve_cases (CatalogId entry) instances provider σ)
    as [(v & _ & ->)|[(_ & _ & ->)|(f & _ & _ & ->)]]; [done| |done].
  intros [= <- <-]. by exists entry, instances, provider.
Qed.

Lemma spread_throws services σ message σ' :
  spread services σ = (Throw message, σ') →
  ∃ name entry instances provider,
    (name, Getter entry instances provider) ∈ services
    ∧ message = noFactoryMessage (__name entry).
Proof.
  revert σ. induction services as [|[n q] rest IH]; intros σ; simpl; [done|].
  destruct (readProperty q σ) as [[value|m] σ1] eqn:Hread.
  - destruct (spread rest σ1) as [[copied|m] σ2] eqn:Hrest; [done|].
    intros [= <- <-].
    destruct (IH _ Hrest) as (name & entry & i & p & Hel & ->).
    exists name, entry, i, p. split; [|done]. by apply elem_of_cons; right.
  - intros [= <- <-].
    apply readProperty_throws in Hread as (entry & i & p & -> & -> & _).
    exists n, entry, i, p. split; [|done]. by apply elem_of_cons; left.
Qed.

Lemma withServices_no_provider entries context σ :
  storage_provider context = None →
  withServices entries context σ
  = (Throw noProviderMessage,
     (getServiceInstances context σ).1.2, (getServiceInstances context σ).2).
Proof.
  intros Hp. unfold withServices, getServiceProvider.
  pose proof (getServiceInstances_provider context σ) as Hp'.
  destruct (getServiceInstances context σ) as [[instances c1] σ1].
  simpl in *. by rewrite Hp', Hp.
Qed.

Lemma withServices_provider entries context σ provider :
  storage_provider context = Some provider →
  withServices entries context σ
  = match spread (existingServices context)
            (getServiceInstances context σ).2 with
    | (Throw message, σ2) =>
        (Throw message, (getServiceInstances context σ).1.2, σ2)
    | (Normal copied, σ2) =>
        (Normal (),
         {| storage_provider := Some provider;
            storage_instances := Some (getServiceInstances context σ).1.1;
            extra :=
              Some {| services :=
                Some (foldl (λ services entry,
                               defineProperty services (__name entry)
                                 (Getter entry
                                    (getServiceInstances context σ).1.1
                                    provider))
                            copied entries) |} |},
         σ2)
    end.
Proof.
  intros Hp. unfold withServices, getServiceProvider.
  pose proof (getServiceInstances_provider context σ) as Hp'.
  pose proof (getServiceInstances_slot context σ) as Hslot.
  pose proof (getServiceInstances_existing context σ) as Hex.
  destruct (getServiceInstances context σ) as [[instances c1] σ1].
  simpl in *. rewrite Hp', Hp, Hex.
  destruct (spread (existingServices context) σ1) as [[copied|m] σ2];
    [|done].
  by rewrite Hslot, <- Hp, <- Hp'.
Qed.

Lemma withServices_returns entries context σ context' σ' provider :
  storage_provider context = Some provider →
  withServices entries context σ = (Normal (), context', σ') →
  ∃ copied,
    spread (existingServices context) (getServiceInstances context σ).2
    = (Normal copied, σ')
    ∧ storage_provider context' = Some provider
    ∧ storage_instances context' = Some (getServiceInstances context σ).1.1
    ∧ existingServices context'
      = foldl (λ services entry,
                 defineProperty services (__name entry)
                   (Getter entry (getServiceInstances context σ).1.1
                      provider))
              copied entries.
Proof.
  intros Hp H. rewrite (withServices_provider _ _ _ _ Hp) in H.
  destruct (spread (existingServices context)
              (getServiceInstances context σ).2)
    as [[copied|m] σ2] eqn:Hs; [|done].
  injection H as <- <-. by exists copied.
Qed.

Lemma attached_getter entries (entry : CatalogEntry) services instances
    provider :
  entry ∈ entries →
  property (foldl (λ services entry,
                     defineProperty services (__name entry)
                       (Getter entry instances provider))
                  services entries) (__name entry)
  = Some (Getter entry instances provider).
Proof.
  destruct entry as [n]. intros Hel.
  rewrite defineGetters_lookup, decide_True; [done|].
  apply list_elem_of_fmap. by exists {| __name := n |}.
Qed.

(** X8. When the adapter returns on a request with provider [provider],
    the [services] object has the names it had and the names of the
    entries and no other; under the name of each entry it has a getter
    closed over that entry, the request's cache and [provider]; and every
    other property is a plain value. *)
Theorem withServices_attaches entries context σ context' σ' provider :
  storage_provider context = Some provider →
  withServices entries context σ = (Normal (), context', σ') →
  storage_provider context' = Some provider
  ∧ storage_instances context' = Some (getServiceInstances context σ).1.1
  ∧ (∀ name,
       is_Some (property (existingServices context') name)
       ↔ is_Some (property (existingServices context) name)
         ∨ name ∈ __name <$> entries)
  ∧ (∀ entry,
       entry ∈ entries →
       property (existingServices context') (__name entry)
       = Some (Getter entry (getServiceInstances context σ).1.1 provider))
  ∧ (∀ name p,
       name ∉ __name <$> entries →
       property (existingServices context') name = Some p →
       ∃ value, p = DataProperty value).
Proof.
  intros Hp H.
  destruct (withServices_returns _ _ _ _ _ _ Hp H)
    as (copied & Hs & Hp' & Hslot & ->).
  split; [done|]. split; [done|]. split; [|split].
  - intros name. rewrite defineGetters_property, !property_is_Some.
    by rewrite (spread_names _ _ _ _ Hs).
  - intros entry Hel. by apply attached_getter.
  - intros name p Hnotin. rewrite defineGetters_lookup.
    rewrite decide_False by done. intros Hprop%property_elem.
    by apply (spread_plain _ _ _ _ Hs name p).
Qed.

(** X9. On a request with a provider whose [services] object, if any,
    has only plain values, the adapter returns and calls no factory,
    whether or not factories are registered for its entries: the store
    is as [getServiceInstances] leaves it.  This is so for the first
    adapter of a request. *)
Theorem withServices_lazy entries context σ provider :
  storage_provider context = Some provider →
  plainOnly (existingServices context) →
  (withServices entries context σ).1.1 = Normal ()
  ∧ (withServices entries context σ).2 = (getServiceInstances context σ).2
  ∧ calls (withServices entries context σ).2 = calls σ
  ∧ world (withServices entries context σ).2 = world σ
  ∧ providers (withServices entries context σ).2 = providers σ.
Proof.
  intros Hp Hplain. rewrite (withServices_provider _ _ _ _ Hp).
  rewrite (spread_plainOnly _ _ Hplain). simpl.
  destruct (getServiceInstances_store_frame context σ) as (? & ? & ? & _).
  done.
Qed.

(** X10. After the adapter has returned, reading the property of one of
    its entries is resolving that entry: it returns what
    [resolveService] for the entry returns, with the same effect on the
    store, and so throws the error of the unregistered service only then,
    at the read.  The getter keeps the provider of the moment the adapter
    ran, also when another provider is installed later. *)
Theorem attached_property_read entries context σ context' σ' provider :
  storage_provider context = Some provider →
  withServices entries context σ = (Normal (), context', σ') →
  ∀ entry τ,
    entry ∈ entries →
    readService (__name entry) context' τ
    = (asRead (resolveService (CatalogId entry) context' τ).1.1,
       (resolveService (CatalogId entry) context' τ).2)
    ∧ ∀ later,
        readService (__name entry) (withServiceProvider later context') τ
        = (asRead (resolveServiceInternal (CatalogId entry)
                     (getServiceInstances context σ).1.1 provider τ).1,
           (resolveServiceInternal (CatalogId entry)
              (getServiceInstances context σ).1.1 provider τ).2).
Proof.
  intros Hp H.
  destruct (withServices_returns _ _ _ _ _ _ Hp H)
    as (copied & _ & Hp' & Hslot & Hex).
  intros entry τ Hel.
  pose proof (attached_getter entries entry copied
                (getServiceInstances context σ).1.1 provider Hel)
    as Hgetter.
  rewrite <- Hex in Hgetter.
  assert (∀ c, existingServices c = existingServices context' →
            readService (__name entry) c τ
            = (asRead (resolveServiceInternal (CatalogId entry)
                         (getServiceInstances context σ).1.1 provider τ).1,
               (resolveServiceInternal (CatalogId entry)
                  (getServiceInstances context σ).1.1 provider τ).2))
    as Hread.
  { intros c Hc. unfold readService. rewrite Hc, Hgetter.
    unfold readProperty.
    by destruct (resolveServiceInternal (CatalogId entry) _ provider τ)
      as [[value|message] τ']. }
  split; [|intros later; by apply Hread].
  rewrite (Hread context' eq_refl).
  rewrite (resolveService_provider _ _ _ _ Hp').
  by rewrite (getServiceInstances_set _ _ _ Hslot).
Qed.

End AdapterFacts.

(** ** The [services] object and the cache *)

Section ServicesAndCache.
Context {V W : Type}.
Implicit Types (σ τ : Store V W) (context : RequestContext V).
Implicit Types (services : Services V).

Lemma agreeOn_kept l services σ σ' :
  agreeOn l services σ → entriesKept σ σ' → agreeOn l services σ'.
Proof.
  intros Hagree Hkept name p Hel. specialize (Hagree name p Hel).
  destruct p as [value|entry i pr]; [by apply Hkept|done].
Qed.

Lemma agreeOn_evolves l services σ σ' :
  agreeOn l services σ → evolves σ σ' → agreeOn l services σ'.
Proof. eauto using agreeOn_kept, evolves_entriesKept. Qed.

Lemma readProperty_agree l name (p : Property V) σ value σ' :
  agreeOn l [(name, p)] σ →
  readProperty p σ = (Normal value, σ') →
  mapAt σ' l !! name = Some value.
Proof.
  intros Hagree. specialize (Hagree name p).
  destruct p as [v|entry i pr]; simpl.
  - intros [= <- <-]. apply Hagree. by apply list_elem_of_singleton.
  - destruct Hagree as [-> <-]; [by apply list_elem_of_singleton|].
    apply (resolve_Normal_cached (CatalogId entry)).
Qed.

(** The copy of an object that agrees with the cache agrees with it. *)
Lemma spread_agree l services σ copied σ' :
  agreeOn l services σ →
  spread services σ = (Normal copied, σ') →
  agreeOn l copied σ'.
Proof.
  revert σ copied σ'.
  induction services as [|[n q] rest IH]; intros σ copied σ' Hagree; simpl.
  - intros [= <- <-] name p Hel. by apply elem_of_nil in Hel.
  - destruct (readProperty q σ) as [[value|m] σ1] eqn:Hread; [|done].
    destruct (spread rest σ1) as [[copied'|m] σ2] eqn:Hrest; [|done].
    intros [= <- <-].
    assert (mapAt σ1 l !! n = Some value) as Hhead.
    { apply (readProperty_agree l n q σ value σ1); [|done].
      intros name p [= -> ->]%list_elem_of_singleton.
      apply (Hagree n q). by apply elem_of_cons; left. }
    assert (agreeOn l copied' σ2) as Htail.
    { apply (IH σ1); [|done].
      apply (agreeOn_evolves l rest σ).
      - intros name p Hel. apply (Hagree name p). by apply elem_of_cons; right.
      - pose proof (readProperty_evolves q σ) as He. by rewrite Hread in He. }
    intros name p [[= -> ->]|Hel]%elem_of_cons; [|by apply Htail].
    pose proof (spread_evolves rest σ1) as He. rewrite Hrest in He.
    by apply (evolves_entriesKept σ1 σ2 He).
Qed.

Lemma servicesAgree_evolves context σ σ' :
  servicesAgree context σ → evolves σ σ' → servicesAgree context σ'.
Proof.
  unfold servicesAgree. destruct (storage_instances context); [|done].
  apply agreeOn_evolves.
Qed.

Lemma getServiceInstances_agree context σ :
  servicesAgree context σ →
  servicesAgree (getServiceInstances context σ).1.2
    (getServiceInstances context σ).2.
Proof.
  intros H. destruct (storage_instances context) as [l|] eqn:E.
  { by rewrite (getServiceInstances_set _ _ _ E). }
  rewrite (getServiceInstances_unset _ _ E).
  unfold servicesAgree in *. rewrite E in H. simpl.
  change (agreeOn (newLoc σ) (existingServices context) (withNewMap σ)).
  rewrite H. intros name p Hel. by apply elem_of_nil in Hel.
Qed.

Lemma step_servicesAgree (op : Op V W) context σ :
  servicesAgree context σ →
  servicesAgree (step op context σ).1.2 (step op context σ).2.
Proof.
  intros H.
  destruct op as [sp|provider target factory|entries|target|name].
  - done.
  - done.
  - simpl.
    destruct (storage_provider context) as [provider|] eqn:Hp.
    + rewrite (withServices_provider _ _ _ _ Hp).
      pose proof (getServiceInstances_agree context σ H) as H1.
      pose proof (getServiceInstances_slot context σ) as Hslot.
      pose proof (getServiceInstances_existing context σ) as Hex.
      unfold servicesAgree in H1. rewrite Hslot, Hex in H1.
      destruct (spread (existingServices context)
                  (getServiceInstances context σ).2)
        as [[copied|m] σ2] eqn:Hs; simpl.
      * unfold servicesAgree. simpl.
        intros n q [Hel|(entry & -> & ->)]%defineGetters_elem_named; [|done].
        by apply (spread_agree _ _ _ _ _ H1 Hs).
      * unfold servicesAgree. rewrite Hslot, Hex.
        apply (agreeOn_evolves _ _ _ _ H1).
        pose proof (spread_evolves (existingServices context)
                      (getServiceInstances context σ).2) as He.
        by rewrite Hs in He.
    + rewrite (withServices_no_provider _ _ _ Hp). simpl.
      by apply getServiceInstances_agree.
  - simpl.
    pose proof (getServiceInstances_agree context σ H) as H1.
    destruct (storage_provider context) as [provider|] eqn:Hp.
    + rewrite (resolveService_provider _ _ _ _ Hp).
      set (r := resolveServiceInternal target _ provider _).
      pose proof (resolveServiceInternal_evolves target
                    (getServiceInstances context σ).1.1 provider
                    (getServiceInstances context σ).2) as He.
      fold r in He. destruct r as [[value|m] σ2]; simpl in *;
        by apply (servicesAgree_evolves _ _ _ H1).
    + by rewrite (resolveService_no_provider _ _ _ Hp).
  - simpl. pose proof (readService_evolves name context σ) as He.
    destruct (readService name context σ) as [r σ1]. simpl in *.
    by apply (servicesAgree_evolves _ _ _ H).
Qed.

Lemma run_servicesAgree (ops : list (Op V W)) context σ :
  servicesAgree context σ →
  servicesAgree (run ops context σ).1.2 (run ops context σ).2.
Proof.
  revert context σ. induction ops as [|op ops IH]; intros context σ H;
    simpl; [done|].
  apply (step_servicesAgree op) in H.
  destruct (step op context σ) as [[result c1] σ1]. simpl in *.
  apply IH in H. by destruct (run ops c1 σ1) as [[results c2] σ2].
Qed.

(** X12. At every point of a request, whatever adapters, resolutions,
    reads and registrations came before, the [services] object agrees
    with the request's cache; so a value that a handler reads from it
    under a name is the instance the cache holds under that name, and
    [resolveService] for the catalog entry of that name returns that same
    instance. *)
Theorem services_agree_with_cache (ops : list (Op V W)) σ :
  let context := (run ops newContext σ).1.2 in
  let σ' := (run ops newContext σ).2 in
  servicesAgree context σ'
  ∧ ∀ name value τ,
      readService name context σ' = (Normal (Some value), τ) →
      ∃ l, storage_instances context = Some l
           ∧ mapAt τ l !! name = Some value
           ∧ resolveService (CatalogId {| __name := name |}) context τ
             = (Normal value, context, τ).
Proof.
  intros context σ'.
  assert (servicesAgree context σ') as Hagree.
  { apply run_servicesAgree. done. }
  assert (cacheNeedsProvider context σ') as Hneeds.
  { apply run_cacheNeedsProvider. by intros _. }
  split; [done|]. intros name value τ Hread.
  unfold readService in Hread.
  destruct (property (existingServices context) name) as [p|] eqn:Hprop;
    [|done].
  apply property_elem in Hprop.
  destruct (storage_provider context) as [provider|] eqn:Hp.
  2:{ destruct (Hneeds Hp) as [Hnil _]. rewrite Hnil in Hprop.
      by apply elem_of_nil in Hprop. }
  unfold servicesAgree in Hagree.
  destruct (storage_instances context) as [l|] eqn:Hl.
  2:{ rewrite Hagree in Hprop. by apply elem_of_nil in Hprop. }
  destruct (readProperty p σ') as [[v|m] τ'] eqn:Hrp; [|done].
  injection Hread as -> ->.
  assert (mapAt τ l !! name = Some value) as Hcached.
  { apply (readProperty_agree l name p σ' value τ); [|done].
    intros n q [= -> ->]%list_elem_of_singleton. by apply Hagree. }
  exists l. split; [done|]. split; [done|].
  rewrite (resolveService_provider _ _ _ _ Hp).
  rewrite (getServiceInstances_set _ _ _ Hl). cbn [fst snd].
  by rewrite (resolve_cached (CatalogId {| __name := name |}) l provider τ
                value).
Qed.
End ServicesAndCache.

(** * The further properties on the example application *)

(** Witness of [wellNamed_keys_distinct]. *)
Lemma wellNamed_keys_distinct_witness :
  (wellNamed (CatalogId svc) = true
   ∧ wellNamed (RouteId usersById "svc") = true
   ∧ CatalogId svc ≠ RouteId usersById "svc")
  ∧ factories (provide (CatalogId svc) (always 1) emptyProvider)
      !! registryKey (RouteId usersById "svc")
    = factories emptyProvider !! registryKey (RouteId usersById "svc").
Proof.
  assert (CatalogId svc ≠ RouteId usersById "svc") as Hne by discriminate.
  split; [by repeat split|].
  apply (proj2 (proj2 (wellNamed_keys_distinct (CatalogId svc)
                         (RouteId usersById "svc") eq_refl eq_refl)) Hne).
Defined.

(** Witness of [provide_last_wins_and_commutes]. *)
Lemma provide_last_wins_and_commutes_witness :
  registryKey (CatalogId svc) ≠ registryKey (CatalogId counter)
  ∧ provide (CatalogId svc) (always 1)
      (provide (CatalogId counter) nextId emptyProvider)
    = provide (CatalogId counter) nextId
        (provide (CatalogId svc) (always 1) emptyProvider).
Proof.
  assert (registryKey (CatalogId svc) ≠ registryKey (CatalogId counter))
    as Hne by discriminate.
  split; [done|].
  apply (proj2 (@provide_last_wins_and_commutes nat nat (CatalogId svc)
                  (CatalogId counter) (always 1) nextId emptyProvider) Hne).
Defined.

(** Witness of [getFactory_after_provide]. *)
Lemma getFactory_after_provide_witness :
  factories emptyProvider !! routeKey usersById "svc" = None
  ∧ getFactory (provide (CatalogId svc) (always 2) emptyProvider)
      usersById "svc"
    = Some (always 2).
Proof.
  split; [reflexivity|].
  apply (proj1 (proj2 (@getFactory_after_provide nat nat emptyProvider
                         usersById "svc")) (always 2)).
  reflexivity.
Defined.


(** Witness of [withServices_attaches]. *)
Lemma withServices_attaches_witness :
  (storage_provider installed = Some 0
   ∧ withServices [counter] installed (storeOf counterApp)
     = (Normal (), counterAttached.1.2, counterAttached.2))
  ∧ property (existingServices counterAttached.1.2) (__name counter)
    = Some (Getter counter
              (getServiceInstances installed (storeOf counterApp)).1.1 0).
Proof.
  assert (withServices [counter] installed (storeOf counterApp)
          = (Normal (), counterAttached.1.2, counterAttached.2)) as H
    by (vm_compute; reflexivity).
  split; [by split|].
  destruct (@withServices_attaches nat nat [counter] installed
              (storeOf counterApp) _ _ 0 eq_refl H)
    as (_ & _ & _ & Hgetter & _).
  apply Hgetter. constructor.
Defined.

(** Witness of [withServices_lazy]: attaching the unregistered [logger]
    first returns and calls nothing. *)
Lemma withServices_lazy_witness :
  (storage_provider installed = Some 0
   ∧ plainOnly (existingServices installed))
  ∧ (withServices [logger] installed (storeOf counterApp)).1.1 = Normal ()
  ∧ calls (withServices [logger] installed (storeOf counterApp)).2
    = calls (storeOf counterApp).
Proof.
  assert (plainOnly (existingServices installed)) as Hplain.
  { intros name p Hel. by apply elem_of_nil in Hel. }
  split; [by split|].
  destruct (@withServices_lazy nat nat [logger] installed
              (storeOf counterApp) 0 eq_refl Hplain)
    as (Hreturns & _ & Hcalls & _).
  by split.
Defined.

(** Witness of [attached_property_read]. *)
Lemma attached_property_read_witness :
  (storage_provider installed = Some 0
   ∧ withServices [counter] installed (storeOf counterApp)
     = (Normal (), counterAttached.1.2, counterAttached.2))
  ∧ readService (__name counter) counterAttached.1.2 counterAttached.2
    = (asRead (resolveService (CatalogId counter) counterAttached.1.2
                 counterAttached.2).1.1,
       (resolveService (CatalogId counter) counterAttached.1.2
          counterAttached.2).2).
Proof.
  assert (withServices [counter] installed (storeOf counterApp)
          = (Normal (), counterAttached.1.2, counterAttached.2)) as H
    by (vm_compute; reflexivity).
  split; [by split|].
  apply (@attached_property_read nat nat [counter] installed
           (storeOf counterApp) _ _ 0 eq_refl H counter counterAttached.2).
  constructor.
Defined.

(** Witness of [services_agree_with_cache]. *)
Lemma services_agree_with_cache_witness :
  readService "counter" afterTwoAdapters.1.2 afterTwoAdapters.2
  = (Normal (Some 1), afterTwoAdapters.2)
  ∧ ∃ l, storage_instances afterTwoAdapters.1.2 = Some l
         ∧ mapAt afterTwoAdapters.2 l !! "counter" = Some 1
         ∧ resolveService (CatalogId {| __name := "counter" |})
             afterTwoAdapters.1.2 afterTwoAdapters.2
           = (Normal 1, afterTwoAdapters.1.2, afterTwoAdapters.2).
Proof.
  assert (readService "counter" afterTwoAdapters.1.2 afterTwoAdapters.2
          = (Normal (Some 1), afterTwoAdapters.2)) as H
    by (vm_compute; reflexivity).
  split; [exact H|].
  apply (proj2 (@services_agree_with_cache nat nat (Install 0 :: twoAdapters)
                  (storeOf counterApp)) "counter" 1 afterTwoAdapters.2 H).
Defined.

(** * Factories in general: properties *)

Section GeneralResolution.
Context {V W : Type}.
Implicit Types (σ τ : General.Store V W) (context : RequestContext V).
Implicit Types (target : ServiceIdentifier).
Implicit Types (factory : General.ServiceFactory V W).
Implicit Types
  (nested : ServiceIdentifier → RequestContext V → General.Store V W →
            General.Result V W V).

Lemma general_resolve_unfold nested target instances provider context σ :
  General.resolveServiceInternalWith nested target instances provider
    context σ
  = match General.mapAt σ instances !! cacheKey target with
    | Some cached => Some (Normal cached, context, σ)
    | None =>
        match General.queryFactory (General.providerAt σ provider) target with
        | None => Some (Throw (notRegisteredMessage target), context, σ)
        | Some factory =>
            General.create nested factory instances (cacheKey target)
              context σ
        end
    end.
Proof. by destruct target. Qed.

Lemma general_mapAt_setInstance instances key (instance : V) σ l :
  General.mapAt (General.setInstance instances key instance σ) l
  = if decide (instances = l)
    then <[key := instance]> (General.mapAt σ instances)
    else General.mapAt σ l.
Proof.
  unfold General.mapAt at 1. simpl. case_decide as E.
  - subst. by rewrite lookup_insert_eq.
  - by rewrite lookup_insert_ne.
Qed.

Lemma general_mapAt_withNewMap σ l :
  General.mapAt (General.getServiceInstances
                   {| storage_provider := None; storage_instances := None;
                      extra := None |} σ).2 l
  = General.mapAt σ l.
Proof.
  unfold General.getServiceInstances, General.mapAt. simpl.
  destruct (decide (General.newLoc σ = l)) as [<-|Hne].
  - rewrite lookup_insert_eq.
    assert (General.maps σ !! General.newLoc σ = None) as ->; [|done].
    apply not_elem_of_dom, is_fresh.
  - by rewrite lookup_insert_ne.
Qed.


Lemma general_getServiceInstances_facts context σ :
  storage_instances (General.getServiceInstances context σ).1.2
  = Some (General.getServiceInstances context σ).1.1
  ∧ storage_provider (General.getServiceInstances context σ).1.2
    = storage_provider context
  ∧ existingServices (General.getServiceInstances context σ).1.2
    = existingServices context
  ∧ General.follows context (General.getServiceInstances context σ).1.2
  ∧ (∀ l, General.mapAt (General.getServiceInstances context σ).2 l
          = General.mapAt σ l)
  ∧ General.providers (General.getServiceInstances context σ).2
    = General.providers σ
  ∧ General.world (General.getServiceInstances context σ).2
    = General.world σ
  ∧ General.calls (General.getServiceInstances context σ).2
    = General.calls σ.
Proof.
  unfold General.getServiceInstances.
  destruct (storage_instances context) as [l|] eqn:E; simpl.
  - repeat split; try done; intros l'; by rewrite E.
  - repeat split; try done; intros l;
      first [by rewrite E | apply (general_mapAt_withNewMap σ l)].
Qed.

(** *** What is cached stays cached *)

Lemma general_follows_refl context : General.follows context context.
Proof. split; [apply sameRequest_refl|done]. Qed.

Lemma general_follows_trans (c1 c2 c3 : RequestContext V) :
  General.follows c1 c2 → General.follows c2 c3 → General.follows c1 c3.
Proof.
  intros [H1 E1] [H2 E2]. split; [by eapply sameRequest_trans|congruence].
Qed.

Lemma general_entriesKept_refl σ : General.entriesKept σ σ.
Proof. by intros l key value. Qed.

Lemma general_entriesKept_trans σ1 σ2 σ3 :
  General.entriesKept σ1 σ2 → General.entriesKept σ2 σ3 →
  General.entriesKept σ1 σ3.
Proof. intros H1 H2 l key value H. by apply H2, H1. Qed.

Lemma general_entriesKept_same σ σ' :
  (∀ l, General.mapAt σ' l = General.mapAt σ l) → General.entriesKept σ σ'.
Proof. intros H l key value. by rewrite H. Qed.

Lemma general_call_keeps nested factory :
  General.keeps nested →
  ∀ context σ completion context' σ',
    General.call nested factory context σ = Some (completion, context', σ') →
    General.entriesKept σ σ' ∧ General.follows context context'.
Proof.
  intros Hnested.
  induction factory as [instance|message|next IH|update next IH
                       |target next IH|provider target registered _ next IH];
    intros context σ completion context' σ'; simpl.
  - intros [= <- <- <-].
    split; [apply general_entriesKept_refl|apply general_follows_refl].
  - intros [= <- <- <-].
    split; [apply general_entriesKept_refl|apply general_follows_refl].
  - apply IH.
  - intros H. apply IH in H as [Hk Hs]. split; [|done].
    intros l key value Hc. by apply Hk.
  - destruct (nested target context σ) as [[[c c1] σ1]|] eqn:Hn; [|done].
    intros H. apply IH in H as [Hk Hs].
    destruct (Hnested _ _ _ _ _ _ Hn) as [Hk1 Hs1].
    split; [by eapply general_entriesKept_trans|
            by eapply general_follows_trans].
  - intros H. apply IH in H as [Hk Hs]. split; [|done].
    intros l key value Hc. by apply Hk.
Qed.

Lemma general_create_keeps nested factory instances key context σ
    completion context' σ' :
  General.keeps nested →
  General.mapAt σ instances !! key = None →
  General.create nested factory instances key context σ
  = Some (completion, context', σ') →
  General.entriesKept σ σ' ∧ General.follows context context'.
Proof.
  intros Hnested Hmiss. unfold General.create.
  destruct (General.call nested factory context
              (General.recordCall instances key σ))
    as [[[[instance|message] c1] σ1]|] eqn:Hcall; [| |done].
  - intros [= <- <- <-].
    destruct (general_call_keeps _ _ Hnested _ _ _ _ _ Hcall) as [Hk Hs].
    split; [|done]. intros l k value Hc.
    rewrite general_mapAt_setInstance.
    case_decide as E; [subst l|by apply Hk].
    rewrite lookup_insert_ne; [by apply Hk|].
    intros ->. congruence.
  - intros [= <- <- <-].
    destruct (general_call_keeps _ _ Hnested _ _ _ _ _ Hcall) as [Hk Hs].
    split; [|done]. intros l k value Hc. by apply Hk.
Qed.

Lemma general_internal_keeps nested target instances provider :
  General.keeps nested →
  ∀ context σ completion context' σ',
    General.resolveServiceInternalWith nested target instances provider
      context σ = Some (completion, context', σ') →
    General.entriesKept σ σ' ∧ General.follows context context'.
Proof.
  intros Hnested context σ completion context' σ'.
  rewrite general_resolve_unfold.
  destruct (General.mapAt σ instances !! cacheKey target) as [cached|] eqn:Hc.
  { intros [= <- <- <-].
    split; [apply general_entriesKept_refl|apply general_follows_refl]. }
  destruct (General.queryFactory (General.providerAt σ provider) target)
    as [factory|].
  - by apply general_create_keeps.
  - intros [= <- <- <-].
    split; [apply general_entriesKept_refl|apply general_follows_refl].
Qed.

Lemma general_resolveService_keeps fuel :
  General.keeps (General.resolveService (V:=V) (W:=W) fuel).
Proof.
  induction fuel as [|fuel IH]; intros target context σ completion context' σ';
    simpl; [done|].
  destruct (general_getServiceInstances_facts context σ)
    as (_ & _ & _ & Hs & Hmaps & _).
  destruct (General.getServiceInstances context σ) as [[instances c1] σ1].
  simpl in *.
  destruct (getServiceProvider c1) as [provider|message].
  - intros H. apply (general_internal_keeps _ _ _ _ IH) in H as [Hk Hs'].
    split; [|by eapply general_follows_trans].
    eapply general_entriesKept_trans; [|done].
    by apply general_entriesKept_same.
  - intros [= <- <- <-]. split; [|done]. by apply general_entriesKept_same.
Qed.

Lemma general_resolveServiceInternal_keeps fuel target instances provider
    context σ completion context' σ' :
  General.resolveServiceInternal fuel target instances provider context σ
  = Some (completion, context', σ') →
  General.entriesKept σ σ' ∧ General.follows context context'.
Proof.
  apply general_internal_keeps, general_resolveService_keeps.
Qed.


Lemma general_resolve_cached nested target instances provider context σ
    cached :
  General.mapAt σ instances !! cacheKey target = Some cached →
  General.resolveServiceInternalWith nested target instances provider
    context σ = Some (Normal cached, context, σ).
Proof. intros H. by rewrite general_resolve_unfold, H. Qed.
End GeneralResolution.

Section GeneralRequest.
Context {V W : Type}.
Implicit Types (σ τ : General.Store V W) (context : RequestContext V).
Implicit Types (target : ServiceIdentifier).

Lemma general_follows_existing context context' :
  General.follows context context' →
  existingServices context' = existingServices context.
Proof. intros [_ E]. unfold existingServices. by rewrite E. Qed.

Lemma general_readProperty_keeps fuel (p : Property V) context σ completion
    context' σ' :
  General.readProperty fuel p context σ = Some (completion, context', σ') →
  General.entriesKept σ σ' ∧ General.follows context context'.
Proof.
  destruct p as [value|entry instances provider].
  - intros [= <- <- <-].
    split; [apply general_entriesKept_refl|apply general_follows_refl].
  - apply general_resolveServiceInternal_keeps.
Qed.

Lemma general_spread_keeps fuel (existing : Services V) context σ completion
    context' σ' :
  General.spread fuel existing context σ = Some (completion, context', σ') →
  General.entriesKept σ σ' ∧ General.follows context context'.
Proof.
  revert context σ completion context' σ'.
  induction existing as [|[n q] rest IH];
    intros context σ completion context' σ'; simpl.
  - intros [= <- <- <-].
    split; [apply general_entriesKept_refl|apply general_follows_refl].
  - destruct (General.readProperty fuel q context σ)
      as [[[[value|m] c1] σ1]|] eqn:Hread; [| |done].
    + destruct (general_readProperty_keeps _ _ _ _ _ _ _ Hread)
        as [Hk1 Hs1].
      destruct (General.spread fuel rest c1 σ1)
        as [[[[copied|m] c2] σ2]|] eqn:Hrest; [| |done];
        intros [= <- <- <-];
        destruct (IH _ _ _ _ _ Hrest) as (Hk2 & Hs2);
        (split; [by eapply general_entriesKept_trans|
                 by eapply general_follows_trans]).
    + intros [= <- <- <-].
      by apply (general_readProperty_keeps _ _ _ _ _ _ _ Hread).
Qed.


Lemma general_withServices_step fuel entries context σ :
  General.withServices fuel entries context σ
  = match storage_provider context with
    | None =>
        Some (Throw noProviderMessage,
              (General.getServiceInstances context σ).1.2,
              (General.getServiceInstances context σ).2)
    | Some provider =>
        match General.spread fuel (existingServices context)
                (General.getServiceInstances context σ).1.2
                (General.getServiceInstances context σ).2 with
        | None => None
        | Some (Throw message, context', σ') =>
            Some (Throw message, context', σ')
        | Some (Normal copied, context', σ') =>
            Some (Normal (),
                  {| storage_provider := storage_provider context';
                     storage_instances := storage_instances context';
                     extra :=
                       Some {| services :=
                         Some (foldl
                                 (λ services entry,
                                    defineProperty services (__name entry)
                                      (Getter entry
                                         (General.getServiceInstances
                                            context σ).1.1 provider))
                                 copied entries) |} |},
                  σ')
        end
    end.
Proof.
  unfold General.withServices, getServiceProvider.
  destruct (general_getServiceInstances_facts context σ)
    as (_ & Hp & Hex & _).
  destruct (General.getServiceInstances context σ) as [[instances c1] σ1].
  simpl in *. rewrite Hp, Hex. by destruct (storage_provider context).
Qed.




End GeneralRequest.

(** ** Factories that return, among factories in general

    With such factories the functions of the module [General] do what
    the functions of the first part do, whatever the bound. *)

Section PlainFactories.
Context {V W : Type}.
Implicit Types (σ : Store V W) (context : RequestContext V).
Implicit Types (f : ServiceFactory V W) (p : ServiceProvider V W).
Implicit Types (target : ServiceIdentifier).
















End PlainFactories.

(** *** No call for a key that is cached *)

Section GeneralCalls.
Context {V W : Type}.
Implicit Types (σ τ : General.Store V W) (context : RequestContext V).
Implicit Types (target : ServiceIdentifier).
Implicit Types (factory : General.ServiceFactory V W).
Implicit Types
  (nested : ServiceIdentifier → RequestContext V → General.Store V W →
            General.Result V W V).












End GeneralCalls.

(** ** Memoization, for factories in general *)

Section GeneralMemoization.
Context {V W : Type}.
Implicit Types (σ τ : General.Store V W) (context : RequestContext V).
Implicit Types (target : ServiceIdentifier).
Implicit Types (factory : General.ServiceFactory V W).

Lemma general_create_plain nested (f : ServiceFactory V W) instances key
    context σ :
  General.create nested (plain f) instances key context σ
  = Some (Normal (f (General.world σ)).1, context,
          General.setInstance instances key (f (General.world σ)).1
            (General.setWorld (f (General.world σ)).2
               (General.recordCall instances key σ))).
Proof. done. Qed.



(** C5, amended. A resolution throws exactly when the cache does not
    hold the identifier's key and either the registry query, route key
    first and bare name second, finds no factory, in which case the error
    is the one naming the service, and the method and pattern on the
    route path, and nothing has changed; or the factory that is found
    throws while it is called, in which case the error is that of the
    factory.  When the key is not cached and the factory found returns,
    nothing is thrown and what it returned is returned; a factory that
    returns without calling back into the library always does.  When the
    key is cached, the cached value is returned whatever the registry
    holds. *)
Theorem resolution_throws_iff fuel target instances provider context σ :
  (∀ message context' σ',
     General.resolveServiceInternal fuel target instances provider context σ
     = Some (Throw message, context', σ')
     ↔ General.mapAt σ instances !! cacheKey target = None
       ∧ ((General.queryFactory (General.providerAt σ provider) target = None
           ∧ message = notRegisteredMessage target
           ∧ context' = context ∧ σ' = σ)
          ∨ (∃ factory,
               General.queryFactory (General.providerAt σ provider) target
               = Some factory
               ∧ General.call (General.resolveService fuel) factory context
                   (General.recordCall instances (cacheKey target) σ)
                 = Some (Throw message, context', σ'))))
  ∧ match target with
    | CatalogId entry =>
        occurs_in (dquote +:+ __name entry +:+ dquote)
                  (notRegisteredMessage target)
    | RouteId route name =>
        occurs_in (dquote +:+ name +:+ dquote) (notRegisteredMessage target)
        ∧ occurs_in (dquote +:+ method route +:+ space
                       +:+ source (pattern route) +:+ dquote)
                    (notRegisteredMessage target)
    end
  ∧ (∀ factory instance context' σ',
       General.mapAt σ instances !! cacheKey target = None →
       General.queryFactory (General.providerAt σ provider) target
       = Some factory →
       General.call (General.resolveService fuel) factory context
         (General.recordCall instances (cacheKey target) σ)
       = Some (Normal instance, context', σ') →
       General.resolveServiceInternal fuel target instances provider
         context σ
       = Some (Normal instance, context',
               General.setInstance instances (cacheKey target) instance σ'))
  ∧ (∀ f : ServiceFactory V W,
       General.mapAt σ instances !! cacheKey target = None →
       General.queryFactory (General.providerAt σ provider) target
       = Some (plain f) →
       ∃ σ',
         General.resolveServiceInternal fuel target instances provider
           context σ
         = Some (Normal (f (General.world σ)).1, context, σ'))
  ∧ (∀ cached,
       General.mapAt σ instances !! cacheKey target = Some cached →
       General.resolveServiceInternal fuel target instances provider
         context σ
       = Some (Normal cached, context, σ)).
Proof.
  unfold General.resolveServiceInternal.
  split; [|split; [|split; [|split]]].
  - intros message context' σ'. rewrite general_resolve_unfold.
    unfold General.create.
    destruct (General.mapAt σ instances !! cacheKey target) as [cached|].
    { split; [done|]. by intros [? _]. }
    destruct (General.queryFactory (General.providerAt σ provider) target)
      as [factory|].
    + destruct (General.call (General.resolveService fuel) factory context
                  (General.recordCall instances (cacheKey target) σ))
        as [[[[instance|m] c1] σ1]|] eqn:Hcall.
      * split; [done|]. intros [_ [(? & _)|(factory' & [= <-] & H)]];
          [done|]. rewrite Hcall in H. done.
      * split.
        -- intros [= <- <- <-]. split; [done|]. right. by exists factory.
        -- intros [_ [(? & _)|(factory' & [= <-] & H)]]; [done|].
           by rewrite Hcall in H.
      * split; [done|]. intros [_ [(? & _)|(factory' & [= <-] & H)]];
          [done|]. rewrite Hcall in H. done.
    + split.
      * intros [= <- <- <-]. split; [done|]. by left.
      * intros [_ [(_ & -> & -> & ->)|(factory & ? & _)]]; done.
  - apply notRegisteredMessage_names.
  - intros factory instance context' σ' Hmiss Hq Hcall.
    rewrite general_resolve_unfold, Hmiss, Hq. unfold General.create.
    by rewrite Hcall.
  - intros f Hmiss Hq.
    rewrite general_resolve_unfold, Hmiss, Hq, general_create_plain.
    by eexists.
  - intros cached. apply general_resolve_cached.
Qed.


(** X7. A resolution keeps every entry that is already cached,
    whatever the factory does.  When the key is cached or no factory is
    found it changes nothing.  When the factory found returns without
    calling back into the library, the resolution leaves the registry as
    it was and changes, of all caches, only the entry of the identifier's
    key in the cache it was given. *)
Theorem resolution_changes fuel target instances provider context σ :
  (∀ completion context' σ',
     General.resolveServiceInternal fuel target instances provider context σ
     = Some (completion, context', σ') →
     General.entriesKept σ σ')
  ∧ (is_Some (General.mapAt σ instances !! cacheKey target)
     ∨ General.queryFactory (General.providerAt σ provider) target = None →
     ∃ completion,
       General.resolveServiceInternal fuel target instances provider
         context σ
       = Some (completion, context, σ))
  ∧ (∀ f : ServiceFactory V W,
       General.mapAt σ instances !! cacheKey target = None →
       General.queryFactory (General.providerAt σ provider) target
       = Some (plain f) →
       ∃ σ',
         General.resolveServiceInternal fuel target instances provider
           context σ
         = Some (Normal (f (General.world σ)).1, context, σ')
         ∧ General.providers σ' = General.providers σ
         ∧ ∀ l key,
             (l, key) ≠ (instances, cacheKey target) →
             General.mapAt σ' l !! key = General.mapAt σ l !! key).
Proof.
  split; [|split].
  - intros completion context' σ' H.
    by apply general_resolveServiceInternal_keeps in H as [? _].
  - unfold General.resolveServiceInternal. rewrite general_resolve_unfold.
    intros [[cached ->]|Hq]; [by eexists|].
    destruct (General.mapAt σ instances !! cacheKey target); [by eexists|].
    rewrite Hq. by eexists.
  - intros f Hmiss Hq. unfold General.resolveServiceInternal.
    rewrite general_resolve_unfold, Hmiss, Hq, general_create_plain.
    eexists. split; [done|]. split; [done|].
    intros l key Hne. rewrite general_mapAt_setInstance.
    case_decide as E; [subst l|done].
    rewrite lookup_insert_ne; [done|]. intros E. apply Hne. by rewrite E.
Qed.

Lemma general_spread_throws fuel (existing : Services V) context σ message
    context' σ' :
  General.spread fuel existing context σ = Some (Throw message, context', σ') →
  ∃ name entry instances provider context0 σ0,
    (name, Getter entry instances provider) ∈ existing
    ∧ General.resolveServiceInternal fuel (CatalogId entry) instances
        provider context0 σ0
      = Some (Throw message, context', σ').
Proof.
  revert context σ. induction existing as [|[n q] rest IH];
    intros context σ; simpl; [done|].
  destruct (General.readProperty fuel q context σ)
    as [[[[value|m] c1] σ1]|] eqn:Hread; [| |done].
  - destruct (General.spread fuel rest c1 σ1)
      as [[[[copied|m] c2] σ2]|] eqn:Hrest; [done| |done].
    intros [= <- <- <-].
    destruct (IH _ _ Hrest) as (name & entry & i & p & c0 & σ0 & Hel & H).
    exists name, entry, i, p, c0, σ0. split; [|done].
    by apply elem_of_cons; right.
  - intros [= <- <- <-].
    destruct q as [value|entry i p]; [done|].
    exists n, entry, i, p, context, σ. split; [|done].
    by apply elem_of_cons; left.
Qed.

(** X11. When the adapter throws, nothing is attached: the request has
    the [services] object it had.  The error is that of the missing
    provider, no factory having been called, or the error thrown by the
    read of a getter that an earlier adapter attached. *)
Theorem withServices_errors fuel entries context σ message context' σ' :
  General.withServices fuel entries context σ
  = Some (Throw message, context', σ') →
  existingServices context' = existingServices context
  ∧ ((storage_provider context = None
      ∧ message = noProviderMessage
      ∧ General.calls σ' = General.calls σ
      ∧ General.world σ' = General.world σ)
     ∨ (∃ name entry instances provider context0 σ0,
          (name, Getter entry instances provider) ∈ existingServices context
          ∧ General.resolveServiceInternal fuel (CatalogId entry) instances
              provider context0 σ0
            = Some (Throw message, context', σ'))).
Proof.
  rewrite general_withServices_step.
  destruct (general_getServiceInstances_facts context σ)
    as (_ & _ & Hex & _ & _ & _ & Hworld & Hcalls).
  destruct (storage_provider context) as [provider|].
  - destruct (General.spread fuel (existingServices context) _ _)
      as [[[[copied|m] c2] σ2]|] eqn:Hspread; [done| |done].
    intros [= <- <- <-].
    destruct (general_spread_keeps _ _ _ _ _ _ _ Hspread) as [_ Hf].
    split; [by rewrite (general_follows_existing _ _ Hf)|].
    right. by apply (general_spread_throws _ _ _ _ _ _ _ Hspread).
  - intros [= <- <- <-]. split; [done|]. by left.
Qed.
End GeneralMemoization.

(** Array indices come first among the properties of an object, in
    ascending order; the other names follow in the order of creation. *)
Example defineProperty_order :
  (defineProperty
     (defineProperty
        (defineProperty [("b", DataProperty 1)] "10" (DataProperty 2))
        "a" (DataProperty 3))
     "9" (DataProperty 4)).*1
  = ["9"; "10"; "b"; "a"]
  ∧ arrayIndex "0" = Some 0%N
  ∧ arrayIndex "01" = None
  ∧ arrayIndex "-1" = None
  ∧ arrayIndex "4294967294" = Some 4294967294%N
  ∧ arrayIndex "4294967295" = None.
Proof. by vm_compute. Qed.

(** ** Examples, for factories in general *)



(** Witness of [resolution_throws_iff]: the error of [flaky], and the
    error for [logger], which has no factory. *)
Lemma resolution_throws_iff_witness :
  (General.mapAt (generalStoreOf flaky) 0 !! cacheKey (CatalogId svc) = None
   ∧ General.queryFactory (General.providerAt (generalStoreOf flaky) 0)
       (CatalogId svc) = Some flaky
   ∧ General.call (General.resolveService 1) flaky installed
       (General.recordCall 0 (cacheKey (CatalogId svc))
          (generalStoreOf flaky))
     = Some (Throw "unavailable", installed, flakyFailed))
  ∧ General.resolveServiceInternal 1 (CatalogId svc) 0 0 installed
      (generalStoreOf flaky)
    = Some (Throw "unavailable", installed, flakyFailed)
  ∧ General.resolveServiceInternal 1 (CatalogId logger) 0 0 installed
      (generalStoreOf flaky)
    = Some (Throw (notRegisteredMessage (CatalogId logger)), installed,
            generalStoreOf flaky).
Proof.
  assert (General.call (General.resolveService 1) flaky installed
            (General.recordCall 0 (cacheKey (CatalogId svc))
               (generalStoreOf flaky))
          = Some (Throw "unavailable", installed, flakyFailed)) as Hcall
    by (vm_compute; reflexivity).
  split; [split; [reflexivity|split; [reflexivity|exact Hcall]]|].
  split.
  - apply (proj2 (proj1 (@resolution_throws_iff nat nat 1 (CatalogId svc)
                           0 0 installed (generalStoreOf flaky))
                    "unavailable" installed flakyFailed)).
    split; [reflexivity|]. right. exists flaky. split; [reflexivity|].
    exact Hcall.
  - apply (proj2 (proj1 (@resolution_throws_iff nat nat 1 (CatalogId logger)
                           0 0 installed (generalStoreOf flaky))
                    (notRegisteredMessage (CatalogId logger)) installed
                    (generalStoreOf flaky))).
    split; [reflexivity|]. left. repeat split; reflexivity.
Defined.


(** Witness of [resolution_changes]. *)
Lemma resolution_changes_witness :
  General.queryFactory (General.providerAt (generalStoreOf flaky) 0)
    (CatalogId logger) = None
  ∧ ∃ completion,
      General.resolveServiceInternal 1 (CatalogId logger) 0 0 installed
        (generalStoreOf flaky)
      = Some (completion, installed, generalStoreOf flaky).
Proof.
  split; [reflexivity|].
  apply (proj1 (proj2 (@resolution_changes nat nat 1 (CatalogId logger) 0 0
                         installed (generalStoreOf flaky)))).
  right. reflexivity.
Defined.

(** Witness of [withServices_errors]: the adapter for [logger], after
    the adapter for [svc] with the factory [flaky]. *)
Lemma withServices_errors_witness :
  (General.withServices 1 [svc] installed (generalStoreOf flaky)
   = Some (Normal (), svcAttached, flakyCached)
   ∧ General.withServices 1 [logger] svcAttached flakyCached
     = Some (Throw "unavailable", svcAttached, flakyFailedCached))
  ∧ ((storage_provider svcAttached = None
      ∧ "unavailable" = noProviderMessage
      ∧ General.calls flakyFailedCached = General.calls flakyCached
      ∧ General.world flakyFailedCached = General.world flakyCached)
     ∨ (∃ name entry instances provider context0 σ0,
          (name, Getter entry instances provider)
          ∈ existingServices svcAttached
          ∧ General.resolveServiceInternal 1 (CatalogId entry) instances
              provider context0 σ0
            = Some (Throw "unavailable", svcAttached, flakyFailedCached))).
Proof.
  assert (General.withServices 1 [logger] svcAttached flakyCached
          = Some (Throw "unavailable", svcAttached, flakyFailedCached)) as H
    by (vm_compute; reflexivity).
  split; [split; [vm_compute; reflexivity|exact H]|].
  exact (proj2 (@withServices_errors nat nat _ _ _ _ _ _ _ H)).
Defined.
